(** * Dependency-graph analyses of [main.py], embedded in Rocq

    The Python program analyses a directed graph of package dependencies
    stored as a [dict] from package name to the list of its dependencies.
    This file embeds the six analyses

      [tem_ciclo], [encontrar_cfc], [ordem_instalacao],
      [encontrar_pacotes_criticos], [consultar_dependencias], [simular_remocao]

    and proves the properties the specification states about them; it
    then embeds the loader [carregar_arquivo] and the interactive [main]
    that call them, and proves further properties of the whole.

    Modelling choices.
    - A [dict] keeps insertion order and iteration order is visible in the
      results, so a graph is an association list; [grafo.get(k, [])] and
      [grafo[k]] look the key up (first match), and a well-formed [dict] has
      no repeated key ([dict_ok]).
    - Python [set]s of names are [gset string]; the [dict]s [indices] and
      [lowlinks] of Tarjan's algorithm are [gmap string nat].
    - Exceptions a statement can raise ([KeyError] from [d[k]] and
      [set.remove], [IndexError] from [list.pop], [ValueError] from [max])
      are results of type [res].
    - The nested recursive [dfs] closures are not structurally recursive;
      each takes a bound on the recursion depth ([SemCombustivel] is returned
      when the bound is reached) and every analysis supplies a bound computed
      from the graph which is proved sufficient.
    - The interpreter allows only so many nested calls and [main.py] never
      raises that limit.  The analyses above are the program on an
      interpreter whose limit is never reached; for [ordem_instalacao] the
      limit is modelled too ([ordem_instalacao_limitada]): the bound on the
      depth is then the number of nested calls of [dfs] that the interpreter
      still allows, and reaching it is a [RecursionError]. *)

From stdpp Require Import base tactics option list relations strings gmap sets fin_sets.

#[local] Set Warnings "-clear-no-such-hyp,-unused-intro-pattern".

(** ** Results and exceptions *)

Inductive erro : Type := KeyError | IndexError | ValueError | RecursionError.

Inductive res (A : Type) : Type :=
  | Ok (a : A)
  | Falha (e : erro)
  | SemCombustivel.
Arguments Ok {A} a.
Arguments Falha {A} e.
Arguments SemCombustivel {A}.

(** Sequencing: an exception or an exhausted bound ends the computation. *)
#[global] Instance res_bind : MBind res := λ A B k m,
  match m with
  | Ok a => k a
  | Falha e => Falha e
  | SemCombustivel => SemCombustivel
  end.

(** ** The graph: a [dict] from name to list of names *)

Abbreviation Grafo := (list (string * list string)).

(** [for no in grafo] iterates the keys in insertion order. *)
Definition chaves (g : Grafo) : list string := g.*1.

(** Key lookup of a [dict] kept as an association list. *)
Fixpoint procurar {V} (d : list (string * V)) (k : string) : option V :=
  match d with
  | [] => None
  | (k', v) :: d' => if decide (k = k') then Some v else procurar d' k
  end.

(** [d.get(k, padrao)] *)
Definition get {V} (d : list (string * V)) (k : string) (padrao : V) : V :=
  default padrao (procurar d k).

(** [d[k]] on a plain [dict] *)
Definition item {V} (d : list (string * V)) (k : string) : res V :=
  match procurar d k with
  | Some v => Ok v
  | None => Falha KeyError
  end.

(** [d[k] = v]: the value is replaced in place, a new key goes last. *)
Fixpoint atribuir {V} (d : list (string * V)) (k : string) (v : V) : list (string * V) :=
  match d with
  | [] => [(k, v)]
  | (k', v') :: d' => if decide (k = k') then (k, v) :: d' else (k', v') :: atribuir d' k v
  end.

(** A [dict] has each key once. *)
Definition dict_ok {V} (d : list (string * V)) : Prop := NoDup d.*1.

(** All destinations of edges, and all names known to the graph. *)
Definition destinos (g : Grafo) : list string := mjoin g.*2.
Definition nos (g : Grafo) : list string := chaves g ++ destinos g.

(** The invariant of the data model: every destination is also a key. *)
Definition invariante (g : Grafo) : Prop := ∀ v, v ∈ destinos g → v ∈ chaves g.

(** The bound on the recursion depth every analysis uses. *)
Definition combustivel (g : Grafo) : nat := S (length (nos g)).

(** ** Edges, paths and cycles *)

Definition aresta (g : Grafo) (u v : string) : Prop := v ∈ get g u [].

(** A directed path of length at least one, and of any length. *)
Definition caminho (g : Grafo) : relation string := tc (aresta g).
Definition alcanca (g : Grafo) : relation string := rtc (aresta g).

Definition ciclico (g : Grafo) : Prop := ∃ n, caminho g n n.

(** ** [tem_ciclo] *)

Module TemCiclo.

Record estado : Type := Estado { visitado : gset string; recursao : gset string }.

Section dfs.
Variable grafo : Grafo.

(** The [for vizinho in grafo.get(no, [])] loop of [dfs]; the boolean is
    [true] when the loop left the function through [return True]. *)
Fixpoint vizinhos (dfs : string → estado → res (bool * estado))
    (vs : list string) (st : estado) : res (bool * estado) :=
  match vs with
  | [] => Ok (false, st)
  | vizinho :: vs' =>
      if decide (vizinho ∉ visitado st) then
        '(achou, st') ← dfs vizinho st;
        if achou : bool then Ok (true, st') else vizinhos dfs vs' st'
      else if decide (vizinho ∈ recursao st) then Ok (true, st)
      else vizinhos dfs vs' st
  end.

Fixpoint dfs (fuel : nat) (no : string) (st : estado) : res (bool * estado) :=
  match fuel with
  | 0 => SemCombustivel
  | S fuel' =>
      let st1 := Estado ({[no]} ∪ visitado st) ({[no]} ∪ recursao st) in
      '(achou, st2) ← vizinhos (dfs fuel') (get grafo no []) st1;
      if achou : bool then Ok (true, st2)
      else if decide (no ∈ recursao st2)
           then Ok (false, Estado (visitado st2) (recursao st2 ∖ {[no]}))
           else Falha KeyError
  end.

(** The [for no in grafo] loop of [tem_ciclo]. *)
Fixpoint principal (fuel : nat) (ks : list string) (st : estado) : res bool :=
  match ks with
  | [] => Ok false
  | no :: ks' =>
      if decide (no ∉ visitado st) then
        '(achou, st') ← dfs fuel no st;
        if achou : bool then Ok true else principal fuel ks' st'
      else principal fuel ks' st
  end.
End dfs.

Definition tem_ciclo_com (fuel : nat) (grafo : Grafo) : res bool :=
  principal grafo fuel (chaves grafo) (Estado ∅ ∅).

Definition tem_ciclo (grafo : Grafo) : res bool :=
  tem_ciclo_com (combustivel grafo) grafo.

End TemCiclo.

(** ** [encontrar_cfc]: Tarjan's algorithm *)

Module EncontrarCfc.

(** The variables the closure [dfs] shares with [encontrar_cfc].  The list
    [pilha] is kept with its top first: [pilha.append(no)] is [no :: pilha]
    and [pilha.pop()] takes the head. *)
Record estado : Type := Estado {
  index : nat;
  indices : gmap string nat;
  lowlinks : gmap string nat;
  pilha : list string;
  na_pilha : gset string;
  cfc : list (list string)
}.

(** [d[k]] read on one of the two [dict]s. *)
Definition ler (d : gmap string nat) (k : string) : res nat :=
  match d !! k with
  | Some v => Ok v
  | None => Falha KeyError
  end.

Definition com_lowlink (st : estado) (no : string) (v : nat) : estado :=
  Estado (index st) (indices st) (<[no := v]> (lowlinks st))
         (pilha st) (na_pilha st) (cfc st).

(** The [while True] loop that pops the component rooted at [no]. *)
Fixpoint desempilhar (no : string) (p : list string) (np : gset string)
    (componente : list string) : res (list string * gset string * list string) :=
  match p with
  | [] => Falha IndexError
  | v :: p' =>
      if decide (v ∈ np) then
        if decide (v = no) then Ok (p', np ∖ {[v]}, componente ++ [v])
        else desempilhar no p' (np ∖ {[v]}) (componente ++ [v])
      else Falha KeyError
  end.

Section dfs.
Variable grafo : Grafo.

(** The [for vizinho in grafo.get(no, [])] loop of [dfs]. *)
Fixpoint vizinhos (dfs : string → estado → res estado) (no : string)
    (vs : list string) (st : estado) : res estado :=
  match vs with
  | [] => Ok st
  | vizinho :: vs' =>
      if decide (indices st !! vizinho = None) then
        st1 ← dfs vizinho st;
        a ← ler (lowlinks st1) no;
        b ← ler (lowlinks st1) vizinho;
        vizinhos dfs no vs' (com_lowlink st1 no (a `min` b))
      else if decide (vizinho ∈ na_pilha st) then
        a ← ler (lowlinks st) no;
        b ← ler (indices st) vizinho;
        vizinhos dfs no vs' (com_lowlink st no (a `min` b))
      else vizinhos dfs no vs' st
  end.

Fixpoint dfs (fuel : nat) (no : string) (st : estado) : res estado :=
  match fuel with
  | 0 => SemCombustivel
  | S fuel' =>
      let st1 := Estado (S (index st)) (<[no := index st]> (indices st))
                        (<[no := index st]> (lowlinks st))
                        (no :: pilha st) ({[no]} ∪ na_pilha st) (cfc st) in
      st2 ← vizinhos (dfs fuel') no (get grafo no []) st1;
      l ← ler (lowlinks st2) no;
      i ← ler (indices st2) no;
      if decide (l = i) then
        '(p, np, componente) ← desempilhar no (pilha st2) (na_pilha st2) [];
        if decide (1 < length componente) then
          Ok (Estado (index st2) (indices st2) (lowlinks st2) p np
                     (cfc st2 ++ [componente]))
        else
          Ok (Estado (index st2) (indices st2) (lowlinks st2) p np (cfc st2))
      else Ok st2
  end.

(** The [for no in grafo] loop of [encontrar_cfc]. *)
Fixpoint principal (fuel : nat) (ks : list string) (st : estado) : res estado :=
  match ks with
  | [] => Ok st
  | no :: ks' =>
      if decide (indices st !! no = None) then
        st' ← dfs fuel no st; principal fuel ks' st'
      else principal fuel ks' st
  end.
End dfs.

Definition inicial : estado := Estado 0 ∅ ∅ [] ∅ [].

Definition encontrar_cfc_com (fuel : nat) (grafo : Grafo) : res (list (list string)) :=
  st ← principal grafo fuel (chaves grafo) inicial; Ok (cfc st).

Definition encontrar_cfc (grafo : Grafo) : res (list (list string)) :=
  encontrar_cfc_com (combustivel grafo) grafo.

End EncontrarCfc.

(** ** [ordem_instalacao] *)

Module OrdemInstalacao.

Record estado : Type := Estado { ordem : list string; visitado : gset string }.

Section dfs.
Variable grafo : Grafo.

Fixpoint vizinhos (dfs : string → estado → res estado)
    (vs : list string) (st : estado) : res estado :=
  match vs with
  | [] => Ok st
  | vizinho :: vs' =>
      if decide (vizinho ∉ visitado st) then
        st' ← dfs vizinho st; vizinhos dfs vs' st'
      else vizinhos dfs vs' st
  end.

Fixpoint dfs (fuel : nat) (no : string) (st : estado) : res estado :=
  match fuel with
  | 0 => SemCombustivel
  | S fuel' =>
      st2 ← vizinhos (dfs fuel') (get grafo no [])
                     (Estado (ordem st) ({[no]} ∪ visitado st));
      Ok (Estado (ordem st2 ++ [no]) (visitado st2))
  end.

Fixpoint principal (fuel : nat) (ks : list string) (st : estado) : res estado :=
  match ks with
  | [] => Ok st
  | no :: ks' =>
      if decide (no ∉ visitado st) then
        st' ← dfs fuel no st; principal fuel ks' st'
      else principal fuel ks' st
  end.
End dfs.

(** The order in which the calls of [dfs] finish, before the reversal. *)
Definition finalizacao (fuel : nat) (grafo : Grafo) : res (list string) :=
  st ← principal grafo fuel (chaves grafo) (Estado [] ∅); Ok (ordem st).

Definition ordem_instalacao_com (fuel : nat) (grafo : Grafo) : res (list string) :=
  o ← finalizacao fuel grafo; Ok (reverse o).

Definition ordem_instalacao (grafo : Grafo) : res (list string) :=
  ordem_instalacao_com (combustivel grafo) grafo.

(** [ordem_instalacao] on an interpreter that allows [limite] nested calls
    of [dfs].  Every call of [dfs] on a path of the walk is a frame of its
    own; the call that would be one frame too many raises [RecursionError],
    which neither [dfs] nor [ordem_instalacao] catches, so nothing is
    returned.  [dfs limite] is exactly the walk that gives up at that
    depth. *)
Definition ordem_instalacao_limitada (limite : nat) (grafo : Grafo)
    : res (list string) :=
  match ordem_instalacao_com limite grafo with
  | Ok o => Ok o
  | Falha e => Falha e
  | SemCombustivel => Falha RecursionError
  end.


End OrdemInstalacao.

(** ** [encontrar_pacotes_criticos] *)

Module PacotesCriticos.

(** [in_degree], a [defaultdict(int)]: an insertion-ordered table. *)
Abbreviation Tabela := (list (string * nat)).

(** [for destino in grafo[no]: in_degree[destino] = in_degree.get(destino, 0)] *)
Fixpoint iniciar_destinos (ds : list string) (in_degree : Tabela) : Tabela :=
  match ds with
  | [] => in_degree
  | destino :: ds' =>
      iniciar_destinos ds' (atribuir in_degree destino (get in_degree destino 0))
  end.

(** The first [for no in grafo] loop. *)
Fixpoint iniciar (grafo : Grafo) (ks : list string) (in_degree : Tabela) : res Tabela :=
  match ks with
  | [] => Ok in_degree
  | no :: ks' =>
      let d1 := atribuir in_degree no (get in_degree no 0) in
      ds ← item grafo no;
      iniciar grafo ks' (iniciar_destinos ds d1)
  end.

(** [for destino in grafo[origem]: in_degree[destino] += 1]; a missing key
    of a [defaultdict(int)] reads as 0. *)
Fixpoint contar_destinos (ds : list string) (in_degree : Tabela) : Tabela :=
  match ds with
  | [] => in_degree
  | destino :: ds' =>
      contar_destinos ds' (atribuir in_degree destino (get in_degree destino 0 + 1))
  end.

(** The second [for origem in grafo] loop. *)
Fixpoint contar (grafo : Grafo) (ks : list string) (in_degree : Tabela) : res Tabela :=
  match ks with
  | [] => Ok in_degree
  | origem :: ks' =>
      ds ← item grafo origem;
      contar grafo ks' (contar_destinos ds in_degree)
  end.

(** [max(valores)], which raises [ValueError] on an empty sequence. *)
Definition py_max (valores : list nat) : res nat :=
  match valores with
  | [] => Falha ValueError
  | x :: valores' => Ok (foldl Nat.max x valores')
  end.

Definition encontrar_pacotes_criticos (grafo : Grafo)
    : res (list string * nat * Tabela) :=
  d0 ← iniciar grafo (chaves grafo) [];
  in_degree ← contar grafo (chaves grafo) d0;
  if decide (in_degree = []) then Ok ([], 0, [])
  else
    max_dependentes ← py_max in_degree.*2;
    let pacotes_criticos :=
      (filter (λ pg, pg.2 = max_dependentes) in_degree).*1 in
    Ok (pacotes_criticos, max_dependentes, in_degree).

End PacotesCriticos.

(** ** [consultar_dependencias] *)

Module ConsultarDependencias.

Section dfs.
Variable grafo : Grafo.

Fixpoint vizinhos (dfs : string → gset string → res (gset string))
    (vs : list string) (visitado : gset string) : res (gset string) :=
  match vs with
  | [] => Ok visitado
  | vizinho :: vs' =>
      if decide (vizinho ∉ visitado) then
        visitado' ← dfs vizinho ({[vizinho]} ∪ visitado);
        vizinhos dfs vs' visitado'
      else vizinhos dfs vs' visitado
  end.

Fixpoint dfs (fuel : nat) (no : string) (visitado : gset string)
    : res (gset string) :=
  match fuel with
  | 0 => SemCombustivel
  | S fuel' => vizinhos (dfs fuel') (get grafo no []) visitado
  end.
End dfs.

Definition consultar_dependencias_com (fuel : nat) (grafo : Grafo)
    (pacote : string) : res (gset string) :=
  dfs grafo fuel pacote ∅.

Definition consultar_dependencias (grafo : Grafo) (pacote : string)
    : res (gset string) :=
  consultar_dependencias_com (combustivel grafo) grafo pacote.

End ConsultarDependencias.

(** ** [simular_remocao] *)

Module SimularRemocao.

(** [for destino in grafo[origem]: grafo_invertido[destino].append(origem)];
    [grafo_invertido] is a [defaultdict(list)]. *)
Fixpoint inverter_destinos (origem : string) (ds : list string)
    (grafo_invertido : Grafo) : Grafo :=
  match ds with
  | [] => grafo_invertido
  | destino :: ds' =>
      inverter_destinos origem ds'
        (atribuir grafo_invertido destino (get grafo_invertido destino [] ++ [origem]))
  end.

Fixpoint inverter (grafo : Grafo) (ks : list string) (grafo_invertido : Grafo)
    : res Grafo :=
  match ks with
  | [] => Ok grafo_invertido
  | origem :: ks' =>
      ds ← item grafo origem;
      inverter grafo ks' (inverter_destinos origem ds grafo_invertido)
  end.

Section dfs.
Variable grafo_invertido : Grafo.

Fixpoint dependentes (dfs : string → gset string → res (gset string))
    (vs : list string) (afetados : gset string) : res (gset string) :=
  match vs with
  | [] => Ok afetados
  | dependente :: vs' =>
      if decide (dependente ∉ afetados) then
        afetados' ← dfs dependente ({[dependente]} ∪ afetados);
        dependentes dfs vs' afetados'
      else dependentes dfs vs' afetados
  end.

Fixpoint dfs (fuel : nat) (no : string) (afetados : gset string)
    : res (gset string) :=
  match fuel with
  | 0 => SemCombustivel
  | S fuel' => dependentes (dfs fuel') (get grafo_invertido no []) afetados
  end.
End dfs.

Definition simular_remocao_com (fuel : nat) (grafo : Grafo)
    (pacote_removido : string) : res (gset string) :=
  grafo_invertido ← inverter grafo (chaves grafo) [];
  dfs grafo_invertido fuel pacote_removido ∅.

Definition simular_remocao (grafo : Grafo) (pacote_removido : string)
    : res (gset string) :=
  simular_remocao_com (combustivel grafo) grafo pacote_removido.

End SimularRemocao.

(** ** [carregar_arquivo] *)

Module CarregarArquivo.

(** The text of the file is the list of its lines, as the iteration over
    the open file yields them; a character of a line is a code point below
    256.  Opening the file, and the exceptions of that, are not modelled. *)

(** The whitespace that [str.strip()] removes, among those characters:
    code points 9 to 13, 28 to 32, 133 and 160. *)
Definition espaco (c : Ascii.ascii) : bool :=
  let n := Ascii.nat_of_ascii c in
  ((9 <=? n) && (n <=? 13)) || ((28 <=? n) && (n <=? 32))
  || (n =? 133) || (n =? 160).

Fixpoint lstrip (s : string) : string :=
  match s with
  | EmptyString => EmptyString
  | String c s' => if espaco c then lstrip s' else s
  end.

Fixpoint rstrip (s : string) : string :=
  match s with
  | EmptyString => EmptyString
  | String c s' =>
      match rstrip s' with
      | EmptyString => if espaco c then EmptyString else String c EmptyString
      | r => String c r
      end
  end.

(** [linha.strip()] *)
Definition strip (s : string) : string := rstrip (lstrip s).

(** [s.split(' ')]: the pieces between single spaces; never empty. *)
Fixpoint split (s : string) : list string :=
  match s with
  | EmptyString => [EmptyString]
  | String c s' =>
      if decide (c = Ascii.Space) then EmptyString :: split s'
      else match split s' with
           | t :: ts => String c t :: ts
           | [] => [String c EmptyString]
           end
  end.

(** [grafo[k]] on the [defaultdict(list)]: a missing key is inserted, last,
    with an empty list. *)
Definition tocar (grafo : Grafo) (k : string) : Grafo :=
  match procurar grafo k with
  | Some _ => grafo
  | None => grafo ++ [(k, [])]
  end.

(** [linha[0]] *)
Definition primeiro (linha : list string) : res string :=
  match linha with
  | [] => Falha IndexError
  | origem :: _ => Ok origem
  end.

(** [for depend in linha[1::]: grafo[linha[0]].append(depend); grafo[depend]] *)
Fixpoint dependencias (linha deps : list string) (grafo : Grafo) : res Grafo :=
  match deps with
  | [] => Ok grafo
  | depend :: deps' =>
      origem ← primeiro linha;
      let g1 := atribuir grafo origem (get grafo origem [] ++ [depend]) in
      dependencias linha deps' (tocar g1 depend)
  end.

(** [for linha in arquivo] *)
Fixpoint linhas (arquivo : list string) (grafo : Grafo) : res Grafo :=
  match arquivo with
  | [] => Ok grafo
  | l :: arquivo' =>
      let linha := split (strip l) in
      grafo' ← dependencias linha (drop 1 linha) grafo;
      linhas arquivo' grafo'
  end.

Definition carregar_arquivo (arquivo : list string) : res Grafo :=
  linhas arquivo [].

End CarregarArquivo.

(** ** [menu] and [main] *)

Module Principal.

(** What a run prints: one entry for each message of the program, with
    the values it shows (the six lines of [menu(ciclo)] are one entry, and
    so are a heading and the list under it).  How [print] lays the values
    out, and the prompts of [input], are not recorded. *)
Inductive saida : Type :=
  | ArquivoNaoEncontrado
  | CicloDetectado (ciclo : bool)
  | Menu (ciclo : bool)
  | Componentes (cfcs : list (list string))
  | SemComponentes
  | Ordem (ordem : list string)
  | Criticos (grau : nat) (criticos : list string)
  | PacoteNaoEncontrado
  | Dependencias (deps : gset string)
  | SemDependencias
  | Afetados (afetados : gset string)
  | NenhumAfetado
  | Saindo
  | OpcaoInvalida.

(** How a run ends: [main] returns, [sys.exit] is called, [input] finds
    the end of the input ([EOFError]), an analysis raises, or a bound on
    the recursion of the model is reached.  These are the ends of a run on
    a file that is read or is missing, with a recursion limit that is not
    reached; the run is followed for what it prints on the way. *)
Inductive fim : Type :=
  | Retorno
  | Saida (codigo : nat)
  | FimDaEntrada
  | Excecao (e : erro)
  | Esgotado.

Definition execucao : Type := list saida * fim.

(** The run stops where an analysis does not return. *)
Definition apos {A} (r : res A) (k : A → execucao) : execucao :=
  match r with
  | Ok a => k a
  | Falha e => ([], Excecao e)
  | SemCombustivel => ([], Esgotado)
  end.

Definition imprime (s : saida) (e : execucao) : execucao := (s :: e.1, e.2).

(** The [while True] loop of [main]; [entradas] are the lines that the
    calls of [input] read, in turn. *)
Fixpoint laco (grafo : Grafo) (ciclo : bool) (entradas : list string) : execucao :=
  imprime (Menu ciclo)
    match entradas with
    | [] => ([], FimDaEntrada)
    | escolha :: resto =>
        if decide (escolha = "1") then
          if ciclo then
            apos (EncontrarCfc.encontrar_cfc grafo) (λ cfcs,
              imprime (if decide (cfcs = []) then SemComponentes else Componentes cfcs)
                      (laco grafo ciclo resto))
          else
            apos (OrdemInstalacao.ordem_instalacao grafo) (λ ordem,
              imprime (Ordem ordem) (laco grafo ciclo resto))
        else if decide (escolha = "2") then
          apos (PacotesCriticos.encontrar_pacotes_criticos grafo) (λ r,
            imprime (Criticos r.1.2 r.1.1) (laco grafo ciclo resto))
        else if decide (escolha = "3") then
          match resto with
          | [] => ([], FimDaEntrada)
          | pacote :: resto' =>
              if decide (pacote ∉ chaves grafo) then
                imprime PacoteNaoEncontrado (laco grafo ciclo resto')
              else
                apos (ConsultarDependencias.consultar_dependencias grafo pacote) (λ deps,
                  imprime (if decide (deps = ∅) then SemDependencias else Dependencias deps)
                          (laco grafo ciclo resto'))
          end
        else if decide (escolha = "4") then
          match resto with
          | [] => ([], FimDaEntrada)
          | pacote :: resto' =>
              if decide (pacote ∉ nos grafo) then
                imprime PacoteNaoEncontrado (laco grafo ciclo resto')
              else
                apos (SimularRemocao.simular_remocao grafo pacote) (λ afetados,
                  imprime (if decide (afetados = ∅) then NenhumAfetado else Afetados afetados)
                          (laco grafo ciclo resto'))
          end
        else if decide (escolha = "0") then ([Saindo], Retorno)
        else imprime OpcaoInvalida (laco grafo ciclo resto)
    end.

(** [main]; [arquivos] gives the lines of the file at a path, if there is
    one ([FileNotFoundError] otherwise).  [main] catches that exception
    alone: a path that [open] refuses for another reason (a directory, a
    file without read permission) and a file whose bytes do not decode end
    the run with an exception of their own, and so does a chain of
    dependencies deeper than the interpreter's recursion limit.  Such runs
    are outside [arquivos] and this definition. *)
Definition main (arquivos : string → option (list string)) (entradas : list string)
    : execucao :=
  match entradas with
  | [] => ([], FimDaEntrada)
  | resposta :: resto =>
      let arquivo := if decide (resposta = "") then "entrada.txt" else resposta in
      match arquivos arquivo with
      | None => ([ArquivoNaoEncontrado], Saida 1)
      | Some linhas =>
          apos (CarregarArquivo.carregar_arquivo linhas) (λ grafo,
            apos (TemCiclo.tem_ciclo grafo) (λ ciclo,
              imprime (CicloDetectado ciclo) (laco grafo ciclo resto)))
      end
  end.

End Principal.

(** * Specification predicates and invariants *)

(** ** The universe of names and the termination measure *)

Definition universo (g : Grafo) : gset string := list_to_set (nos g).

(** What is left to visit of a finite universe [U]. *)
Definition restante (U V : gset string) : nat := size (U ∖ V).

(** ** Reachability walk *)

(** [x] is closed in [V]: every successor of [x] is in [V]. *)
Definition fechado (g : Grafo) (V : gset string) (x : string) : Prop :=
  ∀ w, aresta g x w → w ∈ V.

(** What a walk from [no] that turns [V] into [V'] guarantees. *)
Definition pos_alcance (g : Grafo) (no : string) (V V' : gset string) : Prop :=
  V ⊆ V' ∧ ∀ x, x ∈ V' → x ∉ V → caminho g no x ∧ fechado g V' x.

(** ** Cycle detection *)

Section invariantes_ciclo.
Variable g : Grafo.
Import TemCiclo.

(** The finished names: visited and no longer on the recursion path. *)
Definition preto (st : estado) (x : string) : Prop :=
  x ∈ visitado st ∧ x ∉ recursao st.

(** Finished names have finished successors only and lie on no cycle. *)
Definition inv_ciclo (st : estado) : Prop :=
  recursao st ⊆ visitado st
  ∧ (∀ b w, preto st b → aresta g b w → preto st w)
  ∧ (∀ b, preto st b → ¬ caminho g b b).

(** Every name on the recursion path reaches the current one. *)
Definition trilha (st : estado) (no : string) : Prop :=
  ∀ x, x ∈ recursao st → alcanca g x no.

(** What a call of [dfs] entered in [st] guarantees of its result. *)
Definition pos_ciclo (st : estado) (r : bool * estado) : Prop :=
  if r.1 then ciclico g
  else inv_ciclo r.2 ∧ visitado st ⊆ visitado r.2 ∧ recursao r.2 = recursao st.
End invariantes_ciclo.

(** ** Finishing order *)

Section invariantes_ordem.
Variable g : Grafo.
Import OrdemInstalacao.

(** Every successor of a finished name finished earlier, or was still
    open when the name finished and then reaches it. *)
Definition ord (O : list string) : Prop :=
  ∀ l1 a l2 b, O = l1 ++ a :: l2 → aresta g a b → b ∈ l1 ∨ alcanca g b a.

Definition inv_ordem (st : estado) : Prop :=
  (∀ x, x ∈ ordem st → x ∈ visitado st)
  ∧ NoDup (ordem st)
  ∧ (∀ x, x ∈ visitado st → x ∈ chaves g ∨ ∃ u, aresta g u x)
  ∧ ord (ordem st)
  ∧ (∀ x w, x ∈ ordem st → aresta g x w → w ∈ visitado st).

(** Visited and not yet finished. *)
Definition cinza (st : estado) (x : string) : Prop :=
  x ∈ visitado st ∧ x ∉ ordem st.

Definition trilha_o (st : estado) (no : string) : Prop :=
  ∀ x, cinza st x → alcanca g x no.

Definition pos_ordem (st st' : estado) : Prop :=
  inv_ordem st'
  ∧ visitado st ⊆ visitado st'
  ∧ (∀ x, cinza st' x ↔ cinza st x)
  ∧ (∀ x, x ∈ ordem st → x ∈ ordem st').
End invariantes_ordem.

(** [a] stands before [b] in the list [l]. *)
Definition antes (a b : string) (l : list string) : Prop :=
  ∃ l1 l2 l3, l = l1 ++ a :: l2 ++ b :: l3.

(** ** In-degrees *)

(** The number of edges: each entry of each neighbour list counts. *)
Definition num_arestas (g : Grafo) : nat :=
  sum_list ((λ k, length (get g k [])) <$> chaves g).

Definition soma (d : PacotesCriticos.Tabela) : nat := sum_list d.*2.

(** What the specification states about [criticalPackages]: the list is
    not empty and holds exactly the names whose entry is the returned
    integer, no entry is larger, and the entries add up to the number of
    edges. *)
Definition criticos_spec (g : Grafo) : Prop :=
  ∃ criticos maximo (tabela : PacotesCriticos.Tabela),
    PacotesCriticos.encontrar_pacotes_criticos g = Ok (criticos, maximo, tabela)
    ∧ criticos ≠ []
    ∧ dict_ok tabela
    ∧ (∀ x, x ∈ criticos ↔ (x, maximo) ∈ tabela)
    ∧ (∀ k v, (k, v) ∈ tabela → v ≤ maximo)
    ∧ soma tabela = num_arestas g.

(** ** Strongly connected components *)

Section invariantes_cfc.
Variable g : Grafo.
Import EncontrarCfc.

(** An emitted component: at least two distinct names, each reaching
    every other. *)
Definition componente_ok (comp : list string) : Prop :=
  1 < length comp ∧ NoDup comp ∧ ∀ u v, u ∈ comp → v ∈ comp → alcanca g u v.

Definition inv_cfc (st : estado) : Prop :=
  (∀ x, x ∈ na_pilha st ↔ x ∈ pilha st)
  ∧ NoDup (pilha st)
  ∧ (∀ x, x ∈ pilha st → is_Some (indices st !! x))
  ∧ (∀ x i, indices st !! x = Some i → i < index st)
  ∧ (∀ x, is_Some (indices st !! x) → is_Some (lowlinks st !! x))
  ∧ (∀ comp, comp ∈ cfc st → componente_ok comp).

(** What a call leaves untouched: the entries of the names discovered
    before it; new names get indices from the counter on. *)
Definition moldura (st st' : estado) : Prop :=
  (∀ x i, indices st !! x = Some i → indices st' !! x = Some i)
  ∧ (∀ x, is_Some (indices st !! x) → lowlinks st' !! x = lowlinks st !! x)
  ∧ (∀ x i, indices st' !! x = Some i → indices st !! x = None → index st ≤ i)
  ∧ index st ≤ index st'.

(** What the call on [no] entered in [st] guarantees: the names it leaves
    on the stack are new, reachable from [no], and reach a name that was
    on the stack before, whose index is the low-link of [no]. *)
Definition pos_cfc (no : string) (st st' : estado) : Prop :=
  inv_cfc st' ∧ moldura st st' ∧ indices st' !! no = Some (index st)
  ∧ ∃ N, pilha st' = N ++ pilha st
     ∧ (∀ x, x ∈ N → indices st !! x = None ∧ alcanca g no x)
     ∧ ((N = [] ∧ lowlinks st' !! no = Some (index st))
        ∨ ((∃ l y, lowlinks st' !! no = Some l ∧ l < index st ∧ y ∈ pilha st
                   ∧ indices st' !! y = Some l ∧ alcanca g no y)
           ∧ ∀ x, x ∈ N → ∃ y, y ∈ pilha st ∧ alcanca g x y)).

(** The state inside the loop of the call on [no] entered in [st0]. *)
Definition laco_cfc (no : string) (st0 st : estado) : Prop :=
  inv_cfc st ∧ moldura st0 st ∧ indices st !! no = Some (index st0)
  ∧ ∃ M, pilha st = M ++ no :: pilha st0
     ∧ (∀ x, x ∈ M → alcanca g x no ∧ alcanca g no x
                      ∧ ∃ i, indices st !! x = Some i ∧ index st0 < i)
     ∧ (∃ l y, lowlinks st !! no = Some l ∧ l ≤ index st0 ∧ y ∈ pilha st
               ∧ indices st !! y = Some l ∧ alcanca g no y).
End invariantes_cfc.

(** ** Loading the file *)

(** The words of a line: [linha.strip().split(' ')]. *)
Definition palavras (l : string) : list string :=
  CarregarArquivo.split (CarregarArquivo.strip l).

(** The dependencies that the lines of the file declare for [u], in the
    order of the file. *)
Definition declaradas (arquivo : list string) (u : string) : list string :=
  mjoin (drop 1 <$> filter (λ linha, head linha = Some u) (palavras <$> arquivo)).

(** ** In-degrees, read off the graph *)

(** The number of edges that end at [x]: the occurrences of [x] in the
    neighbour lists of the keys. *)
Definition grau_entrada (g : Grafo) (x : string) : nat :=
  sum_list ((λ k, length (filter (x =.) (get g k []))) <$> chaves g).

(** The names the graph knows: keys and destinations of edges. *)
Definition conhecido (g : Grafo) (x : string) : Prop :=
  x ∈ chaves g ∨ ∃ k, aresta g k x.

(** ** Strongly connected components: what is emitted is all there is *)

Section invariantes_cfc_completo.
Variable g : Grafo.
Import EncontrarCfc.

(** A name with an index, and a name that has left the stack. *)
Definition descoberto (st : estado) (x : string) : Prop :=
  is_Some (indices st !! x).

Definition retirado (st : estado) (x : string) : Prop :=
  is_Some (indices st !! x) ∧ x ∉ pilha st.

(** A strongly connected component: its names reach each other, and it
    holds every name that reaches and is reached by one of them. *)
Definition cfc_maximal (comp : list string) : Prop :=
  (∀ u v, u ∈ comp → v ∈ comp → alcanca g u v)
  ∧ (∀ u v, u ∈ comp → alcanca g u v → alcanca g v u → v ∈ comp).

(** The names that left the stack are closed under the edges; each left
    it with its whole component, which was emitted when it has more than
    one name; what was emitted is such a component, and no name was
    emitted twice. *)
Definition inv_completo (st : estado) : Prop :=
  (∀ x y, retirado st x → aresta g x y → retirado st y)
  ∧ (∀ x, retirado st x →
       ∃ comp, x ∈ comp ∧ cfc_maximal comp ∧ (1 < length comp → comp ∈ cfc st))
  ∧ (∀ comp, comp ∈ cfc st → cfc_maximal comp ∧ ∀ x, x ∈ comp → retirado st x)
  ∧ NoDup (mjoin (cfc st)).

(** The names [N] have all their successors discovered, and an edge from
    one of them to a name of the older part [P] of the stack ends at an
    index that is no less than the low-link of [no]. *)
Definition arestas_baixas (st : estado) (no : string) (N P : list string) : Prop :=
  (∀ x y, x ∈ N → aresta g x y → descoberto st y)
  ∧ (∀ l x y i, lowlinks st !! no = Some l → x ∈ N → y ∈ P → aresta g x y →
       indices st !! y = Some i → l ≤ i).

Definition pos_completo (no : string) (st st' : estado) : Prop :=
  inv_completo st'
  ∧ ∀ N, pilha st' = N ++ pilha st → arestas_baixas st' no N (pilha st).

Definition laco_completo (no : string) (st0 st : estado) : Prop :=
  inv_completo st
  ∧ ∀ M, pilha st = M ++ no :: pilha st0 → arestas_baixas st no M (pilha st0).

(** The state in which the loop of the call on [no] is entered. *)
Definition entrada (no : string) (st : estado) : estado :=
  Estado (S (index st)) (<[no := index st]> (indices st))
         (<[no := index st]> (lowlinks st))
         (no :: pilha st) ({[no]} ∪ na_pilha st) (cfc st).
End invariantes_cfc_completo.

(** ** What [main] prints *)

(** What an entry printed by a run on the graph [g] says of [g]. *)
Definition justificada (g : Grafo) (s : Principal.saida) : Prop :=
  match s with
  | Principal.CicloDetectado c | Principal.Menu c => c = true ↔ ciclico g
  | Principal.Componentes cfcs =>
      ciclico g ∧ cfcs ≠ [] ∧ NoDup (mjoin cfcs)
      ∧ ∀ comp, comp ∈ cfcs → componente_ok g comp ∧ cfc_maximal g comp
  | Principal.SemComponentes =>
      ciclico g ∧ ∀ u v, caminho g u v → caminho g v u → u = v
  | Principal.Ordem o =>
      ¬ ciclico g ∧ NoDup o ∧ (∀ x, x ∈ o ↔ conhecido g x)
      ∧ ∀ a b, caminho g a b → antes a b o
  | Principal.Criticos grau criticos =>
      (∀ x, x ∈ criticos ↔ conhecido g x ∧ grau_entrada g x = grau)
      ∧ ∀ y, grau_entrada g y ≤ grau
  | Principal.Dependencias deps =>
      deps ≠ ∅ ∧ ∃ p, p ∈ chaves g ∧ ∀ m, m ∈ deps ↔ caminho g p m
  | Principal.SemDependencias => ∃ p, p ∈ chaves g ∧ get g p [] = []
  | Principal.Afetados afetados =>
      afetados ≠ ∅ ∧ ∃ p, p ∈ nos g ∧ ∀ m, m ∈ afetados ↔ caminho g m p
  | Principal.NenhumAfetado => ∃ p, p ∈ nos g ∧ ∀ k, ¬ aresta g k p
  | _ => True
  end.

(** ** The two scenarios of the specification, and other fixtures *)

Definition triangulo : Grafo := [("A", ["B"]); ("B", ["C"]); ("C", ["A"])].
Definition losango : Grafo :=
  [("A", ["B"; "C"]); ("B", ["D"]); ("C", ["D"]); ("D", [])].

(** A self-loop, and a cycle away from the first keys. *)
Definition laco : Grafo := [("A", ["A"])].
Definition ciclo_distante : Grafo :=
  [("A", ["B"]); ("B", []); ("X", ["Y"]); ("Y", ["Z"]); ("Z", ["X"])].

(** A mapping that breaks the invariant: [B] and [C] are no keys. *)
Definition sem_chave : Grafo := [("A", ["B"; "C"]); ("D", ["A"; "B"])].

(** A chain of [n + 1] packages, each depending on the next: the names are
    [p], [ap], [aap], ... and the last one has no dependency.  It is the
    graph of a file of [n] lines [p ap], [ap aap], ... *)
Fixpoint nome (i : nat) : string :=
  match i with
  | 0 => "p"
  | S j => "a" +:+ nome j
  end.

Definition cadeia (n : nat) : Grafo :=
  ((λ i, (nome i, [nome (S i)])) <$> seq 0 n) ++ [(nome n, [])].

(** * Properties *)

(** ** The scenarios of the specification *)

Example tem_ciclo_triangulo : TemCiclo.tem_ciclo triangulo = Ok true.
Proof. vm_compute. reflexivity. Qed.

Example tem_ciclo_losango : TemCiclo.tem_ciclo losango = Ok false.
Proof. vm_compute. reflexivity. Qed.

Example cfc_triangulo : EncontrarCfc.encontrar_cfc triangulo = Ok [["C"; "B"; "A"]].
Proof. vm_compute. reflexivity. Qed.

Example ordem_losango :
  OrdemInstalacao.ordem_instalacao losango = Ok ["A"; "C"; "B"; "D"].
Proof. vm_compute. reflexivity. Qed.

Example criticos_losango :
  PacotesCriticos.encontrar_pacotes_criticos losango
  = Ok (["D"], 2, [("A", 0); ("B", 1); ("C", 1); ("D", 2)]).
Proof. vm_compute. reflexivity. Qed.

Example dependencias_losango :
  ConsultarDependencias.consultar_dependencias losango "A" = Ok {["B"; "C"; "D"]}.
Proof. vm_compute. reflexivity. Qed.

Example remocao_losango :
  SimularRemocao.simular_remocao losango "D" = Ok {["A"; "B"; "C"]}.
Proof. vm_compute. reflexivity. Qed.

(** ** Lookup and edges *)

Lemma procurar_Some {V} (d : list (string * V)) k v :
  procurar d k = Some v → (k, v) ∈ d.
Proof.
  induction d as [|[k' v'] d IH]; simpl; [done|].
  case_decide as Hk.
  - intros [= ->]. subst. left.
  - intros H. right. by apply IH.
Qed.

Lemma procurar_None {V} (d : list (string * V)) k :
  procurar d k = None ↔ k ∉ d.*1.
Proof.
  induction d as [|[k' v'] d IH]; simpl.
  - split; [intros _; apply not_elem_of_nil | done].
  - case_decide as Hk; rewrite not_elem_of_cons.
    + split; [done | intros [? _]; done].
    + rewrite IH. tauto.
Qed.

Lemma procurar_chave {V} (d : list (string * V)) k :
  k ∈ d.*1 → ∃ v, procurar d k = Some v.
Proof.
  intros Hk. destruct (procurar d k) as [v|] eqn:E; [eauto|].
  by apply procurar_None in E.
Qed.

Lemma procurar_NoDup {V} (d : list (string * V)) k v :
  NoDup d.*1 → (k, v) ∈ d → procurar d k = Some v.
Proof.
  induction d as [|[k' v'] d IH]; simpl.
  - intros _ H. by apply elem_of_nil in H.
  - rewrite NoDup_cons. intros [Hk' Hd] [H|H]%elem_of_cons.
    + injection H as -> ->. by rewrite decide_True.
    + case_decide as Hk; [|by apply IH].
      subst k'. exfalso. apply Hk'.
      apply list_elem_of_fmap. by exists (k, v).
Qed.

Lemma item_chave {V} (d : list (string * V)) k :
  k ∈ d.*1 → ∃ v, item d k = Ok v ∧ procurar d k = Some v.
Proof.
  intros [v Hv]%procurar_chave. exists v. unfold item. by rewrite Hv.
Qed.

Lemma get_destinos (g : Grafo) u v : v ∈ get g u [] → v ∈ destinos g.
Proof.
  unfold get, destinos. destruct (procurar g u) as [vs|] eqn:E; simpl.
  - intros Hv. apply procurar_Some in E.
    apply list_elem_of_join. exists vs. split; [done|].
    apply list_elem_of_fmap. by exists (u, vs).
  - intros H. by apply elem_of_nil in H.
Qed.

Lemma aresta_chave g u v : aresta g u v → u ∈ chaves g.
Proof.
  unfold aresta, get, chaves. destruct (procurar g u) as [vs|] eqn:E; simpl.
  - intros _. apply procurar_Some in E. apply list_elem_of_fmap. by exists (u, vs).
  - intros H. by apply elem_of_nil in H.
Qed.

Lemma aresta_destino g u v : aresta g u v → v ∈ destinos g.
Proof. apply get_destinos. Qed.

Lemma caminho_chave g u v : caminho g u v → u ∈ chaves g.
Proof. intros H. destruct H as [?? H|??? H _]; by eapply aresta_chave. Qed.

(** ** Lemmas on the universe of names and the measure *)

Lemma universo_chave g k : k ∈ chaves g → k ∈ universo g.
Proof. unfold universo, nos. set_solver. Qed.

Lemma universo_destino g v : v ∈ destinos g → v ∈ universo g.
Proof. unfold universo, nos. set_solver. Qed.

Lemma universo_aresta g u v : aresta g u v → v ∈ universo g.
Proof. intros H. by eapply universo_destino, aresta_destino. Qed.

Lemma size_list_to_set_le (l : list string) :
  size (list_to_set l : gset string) ≤ length l.
Proof.
  induction l as [|x l IH].
  - rewrite list_to_set_nil, size_empty. done.
  - rewrite list_to_set_cons. simpl. rewrite size_union_alt, size_singleton.
    assert (size (list_to_set l ∖ {[x]} : gset string) ≤ size (list_to_set l : gset string)).
    { apply subseteq_size. set_solver. }
    lia.
Qed.

Lemma universo_size g : size (universo g) < combustivel g.
Proof. unfold universo, combustivel. pose proof (size_list_to_set_le (nos g)). lia. Qed.

Lemma restante_le U V : restante U V ≤ size U.
Proof. apply subseteq_size. set_solver. Qed.

Lemma restante_mono U V V' : V ⊆ V' → restante U V' ≤ restante U V.
Proof. intros H. apply subseteq_size. set_solver. Qed.

Lemma restante_novo U V x :
  x ∈ U → x ∉ V → restante U ({[x]} ∪ V) < restante U V.
Proof.
  intros Hx Hn. apply subset_size. split; [set_solver|].
  intros H. specialize (H x). set_solver.
Qed.

(** ** Reachability walk ([consultar_dependencias]) *)

Section alcance.
Variable g : Grafo.
Variable U : gset string.
Hypothesis U_aresta : ∀ u v, aresta g u v → v ∈ U.

Lemma fechado_mono V V' x : V ⊆ V' → fechado g V x → fechado g V' x.
Proof. intros HV H w Hw. apply HV. by apply H. Qed.

Lemma vizinhos_alcance (rec : string → gset string → res (gset string)) f no :
  (∀ v V, restante U V < f →
     ∃ V', rec v V = Ok V' ∧ fechado g V' v ∧ pos_alcance g v V V') →
  ∀ vs V, (∀ v, v ∈ vs → aresta g no v) → restante U V ≤ f →
    ∃ V', ConsultarDependencias.vizinhos rec vs V = Ok V'
          ∧ (∀ v, v ∈ vs → v ∈ V') ∧ pos_alcance g no V V'.
Proof.
  unfold pos_alcance.
  intros Hrec. induction vs as [|v vs IH]; intros V Hvs Hf; simpl.
  - exists V. split_and!; [done| |done|].
    + intros v Hv. by apply elem_of_nil in Hv.
    + intros x H1 H2. done.
  - assert (Hv : aresta g no v) by (apply Hvs; left).
    assert (Hvs' : ∀ v', v' ∈ vs → aresta g no v') by (intros; apply Hvs; by right).
    case_decide as Hvis.
    + destruct (Hrec v ({[v]} ∪ V)) as (V1 & -> & Hcl & Hsub & Hnew).
      { eapply Nat.lt_le_trans; [|exact Hf].
        apply restante_novo; [by eapply U_aresta|done]. }
      simpl. destruct (IH V1 Hvs') as (V' & -> & Hin & Hsub' & Hnew').
      { etrans; [|done]. apply restante_mono. set_solver. }
      exists V'. split_and!; [done| | |].
      * intros x [->|Hx]%elem_of_cons; [set_solver|by apply Hin].
      * set_solver.
      * intros x Hx HxV. destruct (decide (x ∈ V1)) as [Hx1|Hx1].
        -- destruct (decide (x = v)) as [->|Hne].
           ++ split; [by apply tc_once|]. by eapply fechado_mono.
           ++ destruct (Hnew x Hx1) as [Hp Hc]; [set_solver|].
              split; [by eapply tc_l|by eapply fechado_mono].
        -- by apply Hnew'.
    + destruct (IH V Hvs' Hf) as (V' & -> & Hin & Hsub' & Hnew').
      exists V'. split_and!; [done| |done|done].
      intros x [->|Hx]%elem_of_cons; [by apply Hsub'|by apply Hin].
Qed.

Lemma dfs_alcance fuel no V :
  restante U V < fuel →
  ∃ V', ConsultarDependencias.dfs g fuel no V = Ok V'
        ∧ fechado g V' no ∧ pos_alcance g no V V'.
Proof.
  revert no V. induction fuel as [|f IH]; intros no V Hf; [lia|].
  simpl.
  destruct (vizinhos_alcance (ConsultarDependencias.dfs g f) f no IH
              (get g no []) V) as (V' & -> & Hin & Hpos); [done|lia|].
  exists V'. split_and!; [done| |done].
  intros w Hw. by apply Hin.
Qed.

(** A set that contains the successors of [n] and is closed contains
    everything reachable from [n] in at least one step. *)
Lemma caminho_fechado (V : gset string) n m :
  fechado g V n → (∀ x, x ∈ V → fechado g V x) → caminho g n m → m ∈ V.
Proof.
  intros Hn Hcl Hp. induction Hp as [x y Hxy|x y z Hxy Hyz IH].
  - by apply Hn.
  - apply IH. apply Hcl. by apply Hn.
Qed.

Lemma consultar_dependencias_com_spec fuel n :
  size U < fuel →
  ∃ s, ConsultarDependencias.consultar_dependencias_com fuel g n = Ok s
       ∧ ∀ m, m ∈ s ↔ caminho g n m.
Proof.
  intros Hf. unfold ConsultarDependencias.consultar_dependencias_com.
  destruct (dfs_alcance fuel n ∅) as (s & -> & Hcl & _ & Hnew).
  { eapply Nat.le_lt_trans; [apply restante_le|done]. }
  exists s. split; [done|]. intros m. split.
  - intros Hm. apply Hnew; [done|set_solver].
  - apply caminho_fechado; [done|]. intros x Hx. apply Hnew; [done|set_solver].
Qed.
End alcance.

(** ** Assignment to a [dict] *)

Lemma procurar_atribuir {V} (d : list (string * V)) k v k' :
  procurar (atribuir d k v) k' = if decide (k' = k) then Some v else procurar d k'.
Proof.
  induction d as [|[k0 v0] d IH]; simpl.
  - by repeat case_decide.
  - destruct (decide (k = k0)) as [->|Hne]; simpl.
    + by repeat case_decide.
    + rewrite IH. repeat case_decide; congruence.
Qed.

Lemma get_atribuir {V} (d : list (string * V)) k v k' x :
  get (atribuir d k v) k' x = if decide (k' = k) then v else get d k' x.
Proof. unfold get. rewrite procurar_atribuir. by case_decide. Qed.

Lemma chaves_atribuir {V} (d : list (string * V)) k v :
  (atribuir d k v).*1 = if decide (k ∈ d.*1) then d.*1 else d.*1 ++ [k].
Proof.
  induction d as [|[k0 v0] d IH].
  - destruct (decide (k ∈ ([] : list (string * V)).*1)) as [Hin|Hin]; [|done].
    by apply elem_of_nil in Hin.
  - cbn [atribuir]. destruct (decide (k = k0)) as [->|Hne].
    + destruct (decide (k0 ∈ ((k0, v0) :: d).*1)) as [Hin|Hin]; [done|].
      exfalso. apply Hin. left.
    + rewrite fmap_cons, IH. cbn [fst].
      destruct (decide (k ∈ d.*1)) as [Hin|Hin];
        destruct (decide (k ∈ ((k0, v0) :: d).*1)) as [Hin'|Hin']; try done.
      * exfalso. apply Hin'. by right.
      * apply elem_of_cons in Hin' as [?|?]; done.
Qed.

Lemma dict_ok_atribuir {V} (d : list (string * V)) k v :
  dict_ok d → dict_ok (atribuir d k v).
Proof.
  unfold dict_ok. rewrite chaves_atribuir. case_decide as Hk; [done|].
  intros Hd. apply NoDup_app. split_and!; [done| |apply NoDup_singleton].
  intros x Hx ->%list_elem_of_singleton. done.
Qed.

(** ** The inverted graph of [simular_remocao] *)

Lemma dfs_remocao_igual g fuel no V :
  SimularRemocao.dfs g fuel no V = ConsultarDependencias.dfs g fuel no V.
Proof.
  revert no V. induction fuel as [|f IH]; intros no V; simpl; [done|].
  generalize (get g no []). intros vs. revert V.
  induction vs as [|v vs IHvs]; intros V; simpl; [done|].
  case_decide; [|done]. rewrite IH.
  destruct (ConsultarDependencias.dfs g f v ({[v]} ∪ V)); simpl; done.
Qed.

Lemma inverter_destinos_get origem ds inv v u :
  u ∈ get (SimularRemocao.inverter_destinos origem ds inv) v []
  ↔ u ∈ get inv v [] ∨ (u = origem ∧ v ∈ ds).
Proof.
  revert inv. induction ds as [|d ds IH]; intros inv; simpl.
  - rewrite elem_of_nil. tauto.
  - rewrite IH, get_atribuir, elem_of_cons. case_decide as Hv.
    + subst d. rewrite elem_of_app, list_elem_of_singleton. tauto.
    + split; [|intros [?|[? [?|?]]]; by eauto]. intros [?|[? ?]]; eauto.
Qed.

Lemma inverter_spec g ks inv :
  (∀ k, k ∈ ks → k ∈ chaves g) →
  ∃ inv', SimularRemocao.inverter g ks inv = Ok inv'
    ∧ ∀ v u, u ∈ get inv' v [] ↔ u ∈ get inv v [] ∨ (u ∈ ks ∧ aresta g u v).
Proof.
  revert inv. induction ks as [|k ks IH]; intros inv Hks; simpl.
  - exists inv. split; [done|]. intros v u. rewrite elem_of_nil. tauto.
  - destruct (item_chave g k) as (ds & -> & Hds); [apply Hks; left|]. simpl.
    destruct (IH (SimularRemocao.inverter_destinos k ds inv)) as (inv' & -> & Hinv).
    { intros k' Hk'. apply Hks. by right. }
    exists inv'. split; [done|]. intros v u.
    rewrite Hinv, inverter_destinos_get, elem_of_cons.
    assert (Hk : ∀ w, aresta g k w ↔ w ∈ ds).
    { intros w. unfold aresta, get. by rewrite Hds. }
    split.
    + intros [[?|[-> ?]]|[? ?]]; [by left| |by eauto].
      right. split; [by left|]. by apply Hk.
    + intros [?|[[->|?] Ha]]; [by eauto| |by eauto].
      left. right. split; [done|]. by apply Hk.
Qed.

Lemma inverter_arestas g :
  ∃ inv, SimularRemocao.inverter g (chaves g) [] = Ok inv
    ∧ ∀ v u, aresta inv v u ↔ aresta g u v.
Proof.
  destruct (inverter_spec g (chaves g) []) as (inv & Hinv & Hget); [done|].
  exists inv. split; [done|]. intros v u. unfold aresta at 1. rewrite Hget.
  unfold get at 1. simpl. rewrite elem_of_nil. split.
  - intros [[]|[_ ?]]. done.
  - intros Ha. right. split; [|done]. by eapply aresta_chave.
Qed.

Lemma tc_inverso {A} (R S : relation A) :
  (∀ x y, S x y ↔ R y x) → ∀ x y, tc S x y ↔ tc R y x.
Proof.
  intros HRS. assert (Hdir : ∀ (R S : relation A),
    (∀ x y, S x y → R y x) → ∀ x y, tc S x y → tc R y x).
  { clear. intros R S H x y Hp. induction Hp as [x y Hxy|x y z Hxy Hyz IH].
    - apply tc_once. by apply H.
    - eapply tc_r; [done|]. by apply H. }
  intros x y. split; apply Hdir; intros ??; apply HRS.
Qed.

Lemma simular_remocao_com_spec g fuel n :
  size (universo g) < fuel →
  ∃ s inv, SimularRemocao.simular_remocao_com fuel g n = Ok s
    ∧ SimularRemocao.inverter g (chaves g) [] = Ok inv
    ∧ (∀ u v, aresta inv v u ↔ aresta g u v)
    ∧ (∀ m, m ∈ s ↔ caminho g m n)
    ∧ (∀ m, m ∈ s ↔ caminho inv n m).
Proof.
  intros Hf. destruct (inverter_arestas g) as (inv & Hinv & Har).
  destruct (consultar_dependencias_com_spec inv (universo g)) with (fuel := fuel) (n := n)
    as (s & Hs & Hmem); [|done|].
  { intros u v Huv. apply universo_chave. apply Har in Huv. by eapply aresta_chave. }
  exists s, inv. unfold SimularRemocao.simular_remocao_com. rewrite Hinv. simpl.
  rewrite dfs_remocao_igual. split_and!; [done|done|done| |done].
  intros m. rewrite Hmem. unfold caminho. by apply tc_inverso.
Qed.

Lemma tc_primeiro {A} (R : relation A) x z :
  tc R x z → ∃ y, R x y ∧ rtc R y z.
Proof.
  intros [? ? Hxy|? y ? Hxy Hyz].
  - eexists. split; [done|]. apply rtc_refl.
  - exists y. split; [done|]. by apply tc_rtc.
Qed.

(** ** Cycle detection ([tem_ciclo]) *)

Section ciclo.
Variable g : Grafo.
Import TemCiclo.

Lemma preto_alcanca st b w :
  inv_ciclo g st → preto st b → alcanca g b w → preto st w.
Proof.
  intros (_ & Hcl & _) Hb Hp. induction Hp as [|x y z Hxy Hyz IH]; [done|].
  apply IH. by eapply Hcl.
Qed.

Lemma vizinhos_ciclo (rec : string → estado → res (bool * estado)) f no :
  (∀ v st, inv_ciclo g st → v ∉ visitado st → trilha g st v → v ∈ universo g →
     restante (universo g) (visitado st) ≤ f →
     ∃ r, rec v st = Ok r ∧ pos_ciclo g st r ∧ (r.1 = false → v ∈ visitado r.2)) →
  ∀ vs st, (∀ v, v ∈ vs → aresta g no v) →
    inv_ciclo g st → trilha g st no → no ∈ recursao st →
    restante (universo g) (visitado st) ≤ f →
    ∃ r, vizinhos rec vs st = Ok r ∧ pos_ciclo g st r
         ∧ (r.1 = false → ∀ v, v ∈ vs → preto r.2 v).
Proof.
  intros Hrec. induction vs as [|v vs IH]; intros st Hvs Hinv Htr Hno Hf; simpl.
  - exists (false, st). split_and!; [done| |].
    + unfold pos_ciclo. simpl. done.
    + intros _ v Hv. by apply elem_of_nil in Hv.
  - assert (Hv : aresta g no v) by (apply Hvs; left).
    assert (Hvs' : ∀ v', v' ∈ vs → aresta g no v') by (intros; apply Hvs; by right).
    case_decide as Hvis; [|case_decide as Hrec'].
    + destruct (Hrec v st) as ([b st1] & -> & Hpos & Hvin); try done.
      { intros x Hx. eapply rtc_r; [by apply Htr|done]. }
      { by eapply universo_aresta. }
      simpl. destruct b; simpl.
      { exists (true, st1). split_and!; [done|exact Hpos|done]. }
      unfold pos_ciclo in Hpos. simpl in Hpos. destruct Hpos as (Hinv1 & Hsub & HR).
      destruct (IH st1 Hvs') as ([b' st2] & -> & Hpos2 & Hblack); try done.
      { unfold trilha. rewrite HR. done. }
      { by rewrite HR. }
      { etrans; [|exact Hf]. by apply restante_mono. }
      exists (b', st2). split; [done|]. unfold pos_ciclo in *. simpl in *.
      destruct b'; [done|]. destruct Hpos2 as (Hinv2 & Hsub2 & HR2).
      split; [split_and!; [done|set_solver|congruence]|].
      intros _ x [->|Hx]%elem_of_cons; [|by apply Hblack].
      split.
      * apply Hsub2. by apply Hvin.
      * rewrite HR2, HR. destruct Hinv as (HRV & _). set_solver.
    + exists (true, st). split_and!; [done| |done].
      unfold pos_ciclo. simpl. exists v.
      eapply tc_rtc_l; [by apply Htr|]. by apply tc_once.
    + destruct (IH st Hvs') as ([b' st2] & -> & Hpos2 & Hblack); try done.
      exists (b', st2). split; [done|]. split; [done|]. simpl.
      intros -> x [->|Hx]%elem_of_cons; [|by apply Hblack].
      unfold pos_ciclo in Hpos2. simpl in *. destruct Hpos2 as (Hinv2 & Hsub2 & HR2).
      split; [by apply Hsub2|by rewrite HR2].
Qed.

Lemma dfs_ciclo fuel no st :
  inv_ciclo g st → no ∉ visitado st → trilha g st no → no ∈ universo g →
  restante (universo g) (visitado st) ≤ fuel →
  ∃ r, dfs g fuel no st = Ok r ∧ pos_ciclo g st r ∧ (r.1 = false → no ∈ visitado r.2).
Proof.
  revert no st. induction fuel as [|f IH]; intros no st Hinv Hno Htr HU Hf.
  { pose proof (restante_novo (universo g) (visitado st) no HU Hno). lia. }
  simpl. set (st1 := Estado ({[no]} ∪ visitado st) ({[no]} ∪ recursao st)).
  destruct Hinv as (HRV & Hcl & Hac).
  assert (HnoR : no ∉ recursao st) by set_solver.
  assert (Hpreto1 : ∀ x, preto st1 x ↔ preto st x).
  { intros x. unfold preto, st1. simpl. set_solver. }
  destruct (vizinhos_ciclo (dfs g f) f no) with (vs := get g no []) (st := st1)
    as ([b st2] & -> & Hpos & Hblack); try done.
  { unfold inv_ciclo. split_and!.
    - unfold st1. simpl. set_solver.
    - intros b w Hb Hw. apply Hpreto1. apply Hpreto1 in Hb. by eapply Hcl.
    - intros b Hb. apply Hac. by apply Hpreto1. }
  { intros x. unfold st1. simpl. intros [->%elem_of_singleton|Hx]%elem_of_union;
      [done|by apply Htr]. }
  { unfold st1. simpl. set_solver. }
  { pose proof (restante_novo (universo g) (visitado st) no HU Hno).
    unfold st1. simpl. lia. }
  simpl. destruct b; simpl.
  { eexists. split_and!; [done|exact Hpos|done]. }
  unfold pos_ciclo in Hpos. simpl in Hpos, Hblack.
  destruct Hpos as (Hinv2 & Hsub & HR). unfold st1 in Hsub, HR. simpl in Hsub, HR.
  rewrite decide_True by set_solver.
  eexists. split; [done|]. unfold pos_ciclo. simpl.
  assert (HR' : recursao st2 ∖ {[no]} = recursao st) by set_solver.
  split; [split_and!|].
  - (* the invariant after [no] has finished *)
    set (st3 := Estado (visitado st2) (recursao st2 ∖ {[no]})).
    assert (Hpreto3 : ∀ x, preto st3 x ↔ preto st2 x ∨ x = no).
    { intros x. unfold preto, st3. simpl. rewrite HR', HR.
      destruct (decide (x = no)) as [->|Hne]; set_solver. }
    destruct Hinv2 as (HRV2 & Hcl2 & Hac2).
    split_and!.
    + simpl. set_solver.
    + intros b w [Hb| ->]%Hpreto3 Hw; apply Hpreto3; left.
      * by eapply Hcl2.
      * by apply Hblack.
    + intros b [Hb| ->]%Hpreto3; [by apply Hac2|].
      intros Hcyc. apply tc_primeiro in Hcyc as (w & Hw & Hwno).
      assert (Hbno : preto st2 no).
      { eapply preto_alcanca; [done| |exact Hwno]. by apply Hblack. }
      destruct Hbno as [_ Hbno]. apply Hbno. rewrite HR. set_solver.
  - set_solver.
  - done.
  - intros _. set_solver.
Qed.

Lemma principal_ciclo fuel ks st :
  size (universo g) ≤ fuel →
  (∀ k, k ∈ ks → k ∈ chaves g) →
  inv_ciclo g st → recursao st = ∅ →
  ∃ b, principal g fuel ks st = Ok b
    ∧ if b then ciclico g
      else ∀ k, k ∈ visitado st ∨ k ∈ ks → ¬ caminho g k k.
Proof.
  intros Hf. revert st. induction ks as [|k ks IH]; intros st Hks Hinv HR; simpl.
  - exists false. split; [done|]. intros k [Hk|Hk]; [|by apply elem_of_nil in Hk].
    destruct Hinv as (_ & _ & Hac). apply Hac. split; [done|]. rewrite HR. set_solver.
  - assert (Hks' : ∀ k', k' ∈ ks → k' ∈ chaves g) by (intros; apply Hks; by right).
    case_decide as Hvis.
    + destruct (dfs_ciclo fuel k st) as ([b st1] & -> & Hpos & Hin); try done.
      { intros x. rewrite HR. set_solver. }
      { apply universo_chave, Hks. left. }
      { etrans; [apply restante_le|done]. }
      simpl. destruct b; simpl.
      { exists true. done. }
      unfold pos_ciclo in Hpos. simpl in Hpos, Hin.
      destruct Hpos as (Hinv1 & Hsub & HR1).
      destruct (IH st1) as (b & -> & Hb); [done|done|congruence|].
      exists b. split; [done|]. destruct b; [done|].
      intros k' [Hk'|[->|Hk']%elem_of_cons]; apply Hb; auto.
    + destruct (IH st) as (b & -> & Hb); [done|done|done|].
      exists b. split; [done|]. destruct b; [done|].
      intros k' [Hk'|[->|Hk']%elem_of_cons]; apply Hb; auto.
Qed.

Lemma tem_ciclo_com_spec fuel :
  size (universo g) ≤ fuel →
  ∃ b, tem_ciclo_com fuel g = Ok b ∧ (b = true ↔ ciclico g).
Proof.
  intros Hf. unfold tem_ciclo_com.
  destruct (principal_ciclo fuel (chaves g) (Estado ∅ ∅)) as (b & Hb & Hres);
    [done|done| |done|].
  { unfold inv_ciclo, preto. simpl. split_and!; [done| |]; set_solver. }
  exists b. split; [done|]. destruct b.
  - done.
  - split; [done|]. intros [n Hn]. exfalso. apply (Hres n); [|done].
    right. by eapply caminho_chave.
Qed.
End ciclo.

(** ** Finishing order ([ordem_instalacao]) *)

Section ordem.
Variable g : Grafo.
Import OrdemInstalacao.

Lemma ord_snoc O x :
  ord g O → (∀ b, aresta g x b → b ∈ O ∨ alcanca g b x) → ord g (O ++ [x]).
Proof.
  intros HO Hx l1 a l2 b Heq Hab.
  destruct l2 as [|y l2 _] using rev_ind.
  - apply app_inj_tail in Heq as [-> ->]. by apply Hx.
  - change (l1 ++ a :: l2 ++ [y]) with (l1 ++ (a :: l2) ++ [y]) in Heq.
    rewrite (assoc_L (++)) in Heq. apply app_inj_tail in Heq as [-> _].
    by eapply HO.
Qed.

Lemma pos_ordem_trans st1 st2 st3 :
  pos_ordem g st1 st2 → pos_ordem g st2 st3 → pos_ordem g st1 st3.
Proof.
  intros (_ & HV & Hc & HO) (Hinv & HV' & Hc' & HO'). split_and!; [done| | |].
  - set_solver.
  - intros x. by rewrite Hc', Hc.
  - intros x Hx. by apply HO', HO.
Qed.

Lemma vizinhos_ordem (rec : string → estado → res estado) f no :
  (∀ v st, inv_ordem g st → v ∉ visitado st → trilha_o g st v →
     (v ∈ chaves g ∨ ∃ u, aresta g u v) →
     restante (universo g) (visitado st) ≤ f →
     ∃ st', rec v st = Ok st' ∧ pos_ordem g st st' ∧ v ∈ ordem st') →
  ∀ vs st, (∀ v, v ∈ vs → aresta g no v) →
    inv_ordem g st → trilha_o g st no →
    restante (universo g) (visitado st) ≤ f →
    ∃ st', vizinhos rec vs st = Ok st' ∧ pos_ordem g st st'
           ∧ ∀ v, v ∈ vs →
               v ∈ visitado st' ∧ (v ∈ ordem st' ∨ alcanca g v no).
Proof.
  intros Hrec. induction vs as [|v vs IH]; intros st Hvs Hinv Htr Hf; simpl.
  - exists st. split_and!; [done| |].
    + split_and!; done.
    + intros v Hv. by apply elem_of_nil in Hv.
  - assert (Hv : aresta g no v) by (apply Hvs; left).
    assert (Hvs' : ∀ v', v' ∈ vs → aresta g no v') by (intros; apply Hvs; by right).
    case_decide as Hvis.
    + destruct (Hrec v st) as (st1 & -> & Hpos & Hvin); [done|done| | |done|].
      { intros x Hx. eapply rtc_r; [by apply Htr|done]. }
      { right. by exists no. }
      simpl. pose proof Hpos as (Hinv1 & HV1 & Hc1 & HO1).
      destruct (IH st1 Hvs') as (st2 & -> & Hpos2 & Hfin); [done| | |].
      { intros x Hx. apply Htr. by apply Hc1. }
      { etrans; [|exact Hf]. by apply restante_mono. }
      exists st2. split_and!; [done|by eapply pos_ordem_trans|].
      intros x [->|Hx]%elem_of_cons; [|by apply Hfin].
      destruct Hpos2 as ((HOV2 & _) & _ & _ & HO2).
      split; [apply HOV2|left]; by apply HO2.
    + destruct (IH st Hvs') as (st2 & -> & Hpos2 & Hfin); [done|done|done|].
      exists st2. split_and!; [done|done|].
      intros x [->|Hx]%elem_of_cons; [|by apply Hfin].
      destruct Hpos2 as (_ & HV2 & _ & HO2). split; [by apply HV2|].
      destruct (decide (v ∈ ordem st)) as [Hin|Hin].
      * left. by apply HO2.
      * right. apply Htr. done.
Qed.

Lemma dfs_ordem fuel no st :
  inv_ordem g st → no ∉ visitado st → trilha_o g st no →
  (no ∈ chaves g ∨ ∃ u, aresta g u no) →
  restante (universo g) (visitado st) ≤ fuel →
  ∃ st', dfs g fuel no st = Ok st' ∧ pos_ordem g st st' ∧ no ∈ ordem st'.
Proof.
  revert no st. induction fuel as [|f IH]; intros no st Hinv Hno Htr Hnode Hf.
  all: assert (HU : no ∈ universo g)
    by (destruct Hnode as [?|[u ?]];
        [by apply universo_chave|by eapply universo_aresta]).
  { pose proof (restante_novo (universo g) (visitado st) no HU Hno). lia. }
  simpl. set (st1 := Estado (ordem st) ({[no]} ∪ visitado st)).
  pose proof Hinv as (HOV & Hnd & HVU & Hord & Hsuc).
  assert (Hcinza1 : ∀ x, cinza st1 x ↔ cinza st x ∨ x = no).
  { intros x. unfold cinza, st1. simpl. split.
    - intros [[->%elem_of_singleton|?]%elem_of_union ?]; auto.
    - intros [[? ?]| ->]; (split; [set_solver|]); [done|]. by intros ?%HOV. }
  destruct (vizinhos_ordem (dfs g f) f no IH (get g no []) st1)
    as (st2 & -> & Hpos & Hfin).
  { done. }
  { unfold inv_ordem, st1. simpl. split_and!; [set_solver|done| |done|].
    - intros x [->%elem_of_singleton|Hx]%elem_of_union; auto.
    - intros x w Hx Hw. apply elem_of_union. right. by eapply Hsuc. }
  { intros x [Hx| ->]%Hcinza1; [by apply Htr|done]. }
  { pose proof (restante_novo (universo g) (visitado st) no HU Hno).
    unfold st1. simpl. lia. }
  simpl. eexists. split; [done|].
  destruct Hpos as ((HOV2 & Hnd2 & HVU2 & Hord2 & Hsuc2) & HV2 & Hc2 & HO2).
  assert (Hno2 : cinza st2 no) by (apply Hc2, Hcinza1; by right).
  destruct Hno2 as [HnoV2 HnoO2].
  split; [split_and!|].
  - unfold inv_ordem. simpl. split_and!.
    + intros x [?| ->%list_elem_of_singleton]%elem_of_app; auto.
    + apply NoDup_app. split_and!; [done| |apply NoDup_singleton].
      intros x Hx ->%list_elem_of_singleton. done.
    + done.
    + apply ord_snoc; [done|]. intros b Hb. by apply Hfin.
    + intros x w [?| ->%list_elem_of_singleton]%elem_of_app Hw.
      * by eapply Hsuc2.
      * by apply Hfin.
  - simpl. unfold st1 in HV2. simpl in HV2. set_solver.
  - intros x. unfold cinza at 1. simpl.
    rewrite elem_of_app, list_elem_of_singleton. split.
    + intros [Hx Hn]. assert (Hc : cinza st2 x) by (split; [done|tauto]).
      apply Hc2, Hcinza1 in Hc as [?| ->]; [done|tauto].
    + intros Hx. assert (Hc : cinza st2 x) by (apply Hc2, Hcinza1; by left).
      destruct Hc as [? ?]. split; [done|]. intros [?| ->]; [done|].
      destruct Hx as [? _]. done.
  - simpl. intros x Hx. apply elem_of_app. left. by apply HO2.
  - simpl. apply elem_of_app. right. left.
Qed.

Lemma principal_ordem fuel ks st :
  size (universo g) ≤ fuel →
  (∀ k, k ∈ ks → k ∈ chaves g) →
  inv_ordem g st → (∀ x, ¬ cinza st x) →
  ∃ st', principal g fuel ks st = Ok st'
    ∧ inv_ordem g st' ∧ (∀ x, ¬ cinza st' x)
    ∧ (∀ k, k ∈ visitado st ∨ k ∈ ks → k ∈ visitado st').
Proof.
  intros Hf. revert st. induction ks as [|k ks IH]; intros st Hks Hinv Hc; simpl.
  - exists st. split_and!; [done|done|done|].
    intros k [?|Hk]; [done|by apply elem_of_nil in Hk].
  - assert (Hks' : ∀ k', k' ∈ ks → k' ∈ chaves g) by (intros; apply Hks; by right).
    case_decide as Hvis.
    + destruct (dfs_ordem fuel k st) as (st1 & -> & Hpos & Hin); [done|done| | | |].
      { intros x Hx. by apply Hc in Hx. }
      { left. apply Hks. left. }
      { etrans; [apply restante_le|done]. }
      simpl. destruct Hpos as (Hinv1 & HV1 & Hc1 & HO1).
      destruct (IH st1) as (st2 & -> & Hinv2 & Hc2 & HV2); [done|done| |].
      { intros x Hx. apply (Hc x). by apply Hc1. }
      exists st2. split_and!; [done|done|done|].
      intros k' [Hk'|[->|Hk']%elem_of_cons]; apply HV2; auto.
      left. destruct Hinv1 as (HOV1 & _). by apply HOV1.
    + destruct (IH st) as (st2 & -> & Hinv2 & Hc2 & HV2); [done|done|done|].
      exists st2. split_and!; [done|done|done|].
      intros k' [Hk'|[->|Hk']%elem_of_cons]; apply HV2; auto.
Qed.

(** The finishing order lists once each the keys of the graph and the
    destinations of its edges. *)
Lemma finalizacao_spec fuel :
  size (universo g) ≤ fuel →
  ∃ O, finalizacao fuel g = Ok O ∧ NoDup O ∧ ord g O
       ∧ (∀ x, x ∈ O ↔ x ∈ chaves g ∨ ∃ u, aresta g u x).
Proof.
  intros Hf. unfold finalizacao.
  destruct (principal_ordem fuel (chaves g) (Estado [] ∅))
    as (st & -> & (HOV & Hnd & HVU & Hord & Hsuc) & Hc & HV); [done|done| | |].
  { unfold inv_ordem. simpl. split_and!; [|apply NoDup_nil_2|set_solver| |].
    - intros x Hx. by apply elem_of_nil in Hx.
    - intros l1 a l2 b Heq. by destruct l1.
    - intros x w Hx. by apply elem_of_nil in Hx. }
  { intros x [Hx _]. simpl in Hx. set_solver. }
  simpl. exists (ordem st). split_and!; [done|done|done|].
  assert (Hfim : ∀ x, x ∈ visitado st → x ∈ ordem st).
  { intros x Hx. destruct (decide (x ∈ ordem st)) as [|Hn]; [done|].
    exfalso. by apply (Hc x). }
  intros x. split.
  - intros Hx%HOV%HVU. done.
  - intros [Hx|[u Hu]].
    + apply Hfim, HV. by right.
    + apply Hfim. eapply Hsuc; [|done]. apply Hfim, HV. right.
      by eapply aresta_chave.
Qed.
End ordem.

(** ** In-degrees ([encontrar_pacotes_criticos]) *)

Section criticos.
Import PacotesCriticos.

Lemma soma_atribuir (d : Tabela) k v :
  soma (atribuir d k v) + get d k 0 = soma d + v.
Proof.
  unfold soma, get. induction d as [|[k0 v0] d IH]; csimpl.
  - lia.
  - destruct (decide (k = k0)) as [->|Hne]; csimpl; lia.
Qed.

Lemma atribuir_nao_vazio {V} (d : list (string * V)) k v : atribuir d k v ≠ [].
Proof. destruct d as [|[k0 v0] d]; simpl; [done|]. by case_decide. Qed.

Lemma iniciar_destinos_spec ds (d : Tabela) :
  soma (iniciar_destinos ds d) = soma d
  ∧ (dict_ok d → dict_ok (iniciar_destinos ds d))
  ∧ (d ≠ [] → iniciar_destinos ds d ≠ []).
Proof.
  revert d. induction ds as [|x ds IH]; intros d; simpl; [done|].
  destruct (IH (atribuir d x (get d x 0))) as (Hs & Hok & Hne).
  pose proof (soma_atribuir d x (get d x 0)).
  split_and!; [lia| |].
  - intros Hd. by apply Hok, dict_ok_atribuir.
  - intros _. apply Hne, atribuir_nao_vazio.
Qed.

Lemma contar_destinos_spec ds (d : Tabela) :
  soma (contar_destinos ds d) = soma d + length ds
  ∧ (dict_ok d → dict_ok (contar_destinos ds d))
  ∧ (d ≠ [] → contar_destinos ds d ≠ []).
Proof.
  revert d. induction ds as [|x ds IH]; intros d; simpl; [by rewrite Nat.add_0_r|].
  destruct (IH (atribuir d x (get d x 0 + 1))) as (Hs & Hok & Hne).
  pose proof (soma_atribuir d x (get d x 0 + 1)).
  split_and!; [lia| |].
  - intros Hd. by apply Hok, dict_ok_atribuir.
  - intros _. apply Hne, atribuir_nao_vazio.
Qed.

Lemma iniciar_spec g ks (d : Tabela) :
  (∀ k, k ∈ ks → k ∈ chaves g) →
  ∃ d', iniciar g ks d = Ok d' ∧ soma d' = soma d
        ∧ (dict_ok d → dict_ok d') ∧ (d ≠ [] ∨ ks ≠ [] → d' ≠ []).
Proof.
  revert d. induction ks as [|k ks IH]; intros d Hks; simpl.
  - exists d. split_and!; [done|done|done|]. by intros [?|?].
  - destruct (item_chave g k) as (ds & -> & _); [apply Hks; left|]. simpl.
    set (d1 := atribuir d k (get d k 0)).
    destruct (iniciar_destinos_spec ds d1) as (Hs1 & Hok1 & Hne1).
    destruct (IH (iniciar_destinos ds d1)) as (d' & -> & Hs & Hok & Hne).
    { intros k' Hk'. apply Hks. by right. }
    pose proof (soma_atribuir d k (get d k 0)). fold d1 in H.
    exists d'. split_and!; [done|lia| |].
    + intros Hd. by apply Hok, Hok1, dict_ok_atribuir.
    + intros _. apply Hne. left. apply Hne1, atribuir_nao_vazio.
Qed.

Lemma contar_spec g ks (d : Tabela) :
  (∀ k, k ∈ ks → k ∈ chaves g) →
  ∃ d', contar g ks d = Ok d'
        ∧ soma d' = soma d + sum_list ((λ k, length (get g k [])) <$> ks)
        ∧ (dict_ok d → dict_ok d') ∧ (d ≠ [] → d' ≠ []).
Proof.
  revert d. induction ks as [|k ks IH]; intros d Hks; csimpl.
  - exists d. split_and!; [done|lia|done|done].
  - destruct (item_chave g k) as (ds & -> & Hds); [apply Hks; left|]. simpl.
    destruct (contar_destinos_spec ds d) as (Hs1 & Hok1 & Hne1).
    destruct (IH (contar_destinos ds d)) as (d' & -> & Hs & Hok & Hne).
    { intros k' Hk'. apply Hks. by right. }
    assert (Hget : get g k [] = ds) by (unfold get; by rewrite Hds).
    exists d'. rewrite Hget. split_and!; [done|lia| |].
    + intros Hd. by apply Hok, Hok1.
    + intros Hd. by apply Hne, Hne1.
Qed.

Lemma foldl_max_spec (l : list nat) x :
  (∀ y, y ∈ x :: l → y ≤ foldl Nat.max x l) ∧ foldl Nat.max x l ∈ x :: l.
Proof.
  revert x. induction l as [|z l IH]; intros x; simpl.
  - split; [|left]. by intros y ->%list_elem_of_singleton.
  - destruct (IH (x `max` z)) as [Hle Hin]. split.
    + intros y Hy. assert (x `max` z ≤ foldl Nat.max (x `max` z) l)
        by (apply Hle; left).
      apply elem_of_cons in Hy as [->|[->|Hy]%elem_of_cons]; [lia|lia|].
      apply Hle. by right.
    + apply elem_of_cons in Hin as [Hin|Hin]; [|by do 2 right].
      rewrite Hin. destruct (Nat.max_spec x z) as [[_ ->]|[_ ->]];
        [right; left|left].
Qed.

Lemma criticos_nao_vazio g : g ≠ [] → criticos_spec g.
Proof.
  intros Hg. unfold criticos_spec, encontrar_pacotes_criticos.
  destruct (iniciar_spec g (chaves g) []) as (d0 & -> & Hs0 & Hok0 & Hne0); [done|].
  simpl. destruct (contar_spec g (chaves g) d0) as (d & -> & Hs & Hok & Hne); [done|].
  simpl. assert (Hd : d ≠ []).
  { apply Hne, Hne0. right. unfold chaves. by destruct g. }
  rewrite decide_False by done.
  destruct d as [|[k0 v0] d'] eqn:Ed; [done|]. rewrite <-Ed in *.
  assert (Hmax : py_max d.*2 = Ok (foldl Nat.max v0 d'.*2)) by (by rewrite Ed).
  rewrite Hmax. simpl. set (m := foldl Nat.max v0 d'.*2).
  destruct (foldl_max_spec d'.*2 v0) as [Hle Hin]. fold m in Hle, Hin.
  change (v0 :: d'.*2) with (((k0, v0) :: d').*2) in Hle, Hin.
  rewrite <-Ed in Hle, Hin.
  assert (Hmem : ∀ x, x ∈ (filter (λ pg, pg.2 = m) d).*1 ↔ (x, m) ∈ d).
  { intros x. rewrite list_elem_of_fmap. split.
    - intros ([k v] & -> & [Hv ?]%list_elem_of_filter). simpl in *. by subst v.
    - intros Hx. exists (x, m). split; [done|]. by apply list_elem_of_filter. }
  eexists _, _, _. split_and!; [done| | |done| |].
  - apply list_elem_of_fmap in Hin as ([k v] & Hm & Hkv). simpl in Hm. subst v.
    intros Hnil. apply Hmem in Hkv. rewrite Hnil in Hkv. by apply elem_of_nil in Hkv.
  - apply Hok, Hok0. unfold dict_ok. apply NoDup_nil_2.
  - intros k v Hkv. apply Hle. apply list_elem_of_fmap. by exists (k, v).
  - rewrite Hs, Hs0. unfold soma, num_arestas. simpl. lia.
Qed.

Lemma num_arestas_dict_ok g :
  dict_ok g → num_arestas g = sum_list (length <$> g.*2).
Proof.
  unfold num_arestas, chaves, dict_ok.
  assert (Hgen : ∀ g0 : Grafo,
    (∀ k vs, (k, vs) ∈ g → get g0 k [] = vs) →
    sum_list ((λ k, length (get g0 k [])) <$> g.*1) = sum_list (length <$> g.*2)).
  { intros g0. induction g as [|[k vs] g IH]; intros Hg0; simpl; [done|].
    rewrite (Hg0 k vs) by left. f_equal. apply IH.
    intros k' vs' Hin. apply Hg0. by right. }
  intros Hnd. apply Hgen. intros k vs Hin. unfold get.
  by rewrite (procurar_NoDup g k vs).
Qed.
End criticos.

(** ** Strongly connected components ([encontrar_cfc]) *)

Section tarjan.
Variable g : Grafo.
Import EncontrarCfc.

Lemma moldura_refl st : moldura st st.
Proof.
  split_and!; [done|done| |done].
  intros x i H1 H2. congruence.
Qed.

Lemma moldura_trans st1 st2 st3 :
  moldura st1 st2 → moldura st2 st3 → moldura st1 st3.
Proof.
  intros (HI & HL & Hn & Hc) (HI' & HL' & Hn' & Hc'). split_and!.
  - intros x i Hx. by apply HI', HI.
  - intros x Hx. rewrite HL'; [by apply HL|].
    destruct Hx as [i Hi]. exists i. by apply HI.
  - intros x i Hx3 Hx1. destruct (indices st2 !! x) as [j|] eqn:Hx2.
    + apply HI' in Hx2 as Hx3'. assert (i = j) by congruence. subst j.
      by apply (Hn x).
    + etrans; [exact Hc|]. by apply (Hn' x).
  - lia.
Qed.

Lemma moldura_com_lowlink st0 st no v :
  indices st0 !! no = None → moldura st0 st → moldura st0 (com_lowlink st no v).
Proof.
  intros Hno (HI & HL & Hn & Hc). split_and!; simpl; [done| |done|done].
  intros x Hx. rewrite lookup_insert_ne; [by apply HL|].
  intros ->. rewrite Hno in Hx. by destruct Hx.
Qed.

Lemma inv_cfc_com_lowlink st no v :
  inv_cfc g st → inv_cfc g (com_lowlink st no v).
Proof.
  intros (H1 & H2 & H3 & H4 & H5 & H6). split_and!; simpl; try done.
  intros x Hx. destruct (decide (x = no)) as [->|Hne].
  - rewrite lookup_insert_eq. by eexists.
  - rewrite lookup_insert_ne by done. by apply H5.
Qed.

Lemma desempilhar_spec no M S np comp :
  NoDup (M ++ no :: S) → (∀ x, x ∈ M ++ [no] → x ∈ np) →
  desempilhar no (M ++ no :: S) np comp
  = Ok (S, np ∖ list_to_set (M ++ [no]), comp ++ M ++ [no]).
Proof.
  revert np comp. induction M as [|m M IH]; intros np comp Hnd Hnp; simpl.
  - rewrite decide_True by (apply Hnp; left). rewrite decide_True by done.
    do 3 f_equal. set_solver.
  - rewrite decide_True by (apply Hnp; left).
    simpl in Hnd. apply NoDup_cons in Hnd as [Hm Hnd].
    rewrite decide_False; last first.
    { intros ->. apply Hm. apply elem_of_app. right. left. }
    rewrite IH; [|done|].
    + f_equal. f_equal; [f_equal; set_solver|]. by rewrite <-(assoc_L (++)).
    + intros x Hx. apply elem_of_difference. split; [apply Hnp; by right|].
      intros ->%elem_of_singleton. apply Hm.
      apply elem_of_app in Hx as [?|Hx]; apply elem_of_app; [by left|].
      apply list_elem_of_singleton in Hx as ->. right. left.
Qed.

Lemma vizinhos_cfc (rec : string → estado → res estado) f no st0 :
  (∀ v st, inv_cfc g st → indices st !! v = None →
     (∀ x, x ∈ pilha st → alcanca g x v) → v ∈ universo g →
     restante (universo g) (dom (indices st)) ≤ f →
     ∃ st', rec v st = Ok st' ∧ pos_cfc g v st st') →
  indices st0 !! no = None →
  (∀ x, x ∈ pilha st0 → alcanca g x no) →
  ∀ vs st, (∀ v, v ∈ vs → aresta g no v) →
    laco_cfc g no st0 st →
    restante (universo g) (dom (indices st)) ≤ f →
    ∃ st', vizinhos rec no vs st = Ok st' ∧ laco_cfc g no st0 st'.
Proof.
  intros Hrec Hno0 Hpath0. induction vs as [|v vs IH]; intros st Hvs Hl Hf.
  { exists st. done. }
  assert (Hv : aresta g no v) by (apply Hvs; left).
  assert (Hvs' : ∀ v', v' ∈ vs → aresta g no v') by (intros; apply Hvs; by right).
  pose proof Hl as (Hinv & Hmol & Hino & M & HP & HM & l & y & Hl1 & Hl2 & Hy & HIy & Hnoy).
  pose proof Hinv as (Ht1 & Ht2 & Ht3 & Ht4 & Ht5 & Ht6).
  assert (Hc0 : index st0 < index st) by (by eapply Ht4).
  assert (Hreach : ∀ x, x ∈ pilha st → alcanca g x no).
  { intros x. rewrite HP. intros [Hx|[->|Hx]%elem_of_cons]%elem_of_app.
    - by apply HM.
    - done.
    - by apply Hpath0. }
  cbn [vizinhos]. case_decide as Hnew; [|case_decide as Hnp].
  - (* an undiscovered successor: the recursive call *)
    destruct (Hrec v st) as (st1 & -> & Hpos); [done|done| | |done|].
    { intros x Hx. eapply rtc_r; [by apply Hreach|done]. }
    { by eapply universo_aresta. }
    destruct Hpos as (Hinv1 & Hmol1 & Hiv & N & HP1 & HN & Hcase).
    pose proof Hmol1 as (HI1 & HL1 & Hn1 & Hc1).
    assert (HLno : lowlinks st1 !! no = Some l).
    { rewrite HL1; [done|]. by eexists. }
    assert (Hb : ∃ b, lowlinks st1 !! v = Some b
              ∧ (l ≤ b ∨ ∃ y', y' ∈ pilha st1 ∧ indices st1 !! y' = Some b
                               ∧ alcanca g no y')).
    { destruct Hcase as [[_ Hroot]|[(b & y' & Hb1 & Hb2 & Hy' & HIy' & Hvy') _]].
      - exists (index st). split; [done|]. left. lia.
      - exists b. split; [done|]. right. exists y'. split_and!; [|done|].
        + rewrite HP1. apply elem_of_app. by right.
        + eapply rtc_l; [exact Hv|done]. }
    destruct Hb as (b & HLv & Hb).
    cbn. unfold ler. rewrite HLno, HLv. cbn.
    apply IH; [done| |].
    + (* the loop invariant is re-established *)
      split_and!.
      * by apply inv_cfc_com_lowlink.
      * apply moldura_com_lowlink; [done|]. by eapply moldura_trans.
      * simpl. by apply HI1.
      * exists (N ++ M). simpl. split_and!.
        -- rewrite HP1, HP. by rewrite (assoc_L (++)).
        -- intros x [Hx|Hx]%elem_of_app.
           ++ destruct (HN x Hx) as [HxI Hvx]. split_and!.
              ** destruct Hcase as [[-> _]|[_ HNy]]; [by apply elem_of_nil in Hx|].
                 destruct (HNy x Hx) as (y' & Hy' & Hxy').
                 etrans; [exact Hxy'|]. by apply Hreach.
              ** eapply rtc_l; [exact Hv|done].
              ** destruct Hinv1 as (_ & _ & Ht3' & _).
                 destruct (Ht3' x) as [i Hi].
                 { rewrite HP1. apply elem_of_app. by left. }
                 exists i. split; [done|]. pose proof (Hn1 x i Hi HxI). lia.
           ++ destruct (HM x Hx) as (? & ? & i & Hi & ?). split_and!; [done|done|].
              exists i. split; [by apply HI1|done].
        -- destruct Hb as [Hle|(y' & Hy' & HIy' & Hnoy')].
           ++ exists l, y. rewrite Nat.min_l by done.
              split_and!; [by rewrite lookup_insert_eq|done| |by apply HI1|done].
              rewrite HP1. apply elem_of_app. by right.
           ++ destruct (decide (l ≤ b)) as [Hle|Hgt].
              ** exists l, y. rewrite Nat.min_l by done.
                 split_and!; [by rewrite lookup_insert_eq|done| |by apply HI1|done].
                 rewrite HP1. apply elem_of_app. by right.
              ** exists b, y'. rewrite Nat.min_r by lia.
                 split_and!; [by rewrite lookup_insert_eq|lia|done|done|done].
    + etrans; [|exact Hf]. apply restante_mono. simpl.
      intros x [i Hi]%elem_of_dom. apply elem_of_dom. exists i. by apply HI1.
  - (* a successor still on the stack *)
    destruct (indices st !! v) as [b|] eqn:HIv; [|done].
    cbn. unfold ler. rewrite Hl1, HIv. cbn.
    apply IH; [done| |done].
    split_and!.
    + by apply inv_cfc_com_lowlink.
    + by apply moldura_com_lowlink.
    + done.
    + exists M. simpl. split_and!; [done|done|].
      destruct (decide (l ≤ b)) as [Hle|Hgt].
      * exists l, y. rewrite Nat.min_l by done.
        split_and!; [by rewrite lookup_insert_eq|done|done|done|done].
      * exists b, v. rewrite Nat.min_r by lia.
        split_and!; [by rewrite lookup_insert_eq|lia|by apply Ht1|done|].
        by apply rtc_once.
  - by apply IH.
Qed.

Lemma dfs_cfc fuel no st :
  inv_cfc g st → indices st !! no = None →
  (∀ x, x ∈ pilha st → alcanca g x no) → no ∈ universo g →
  restante (universo g) (dom (indices st)) ≤ fuel →
  ∃ st', dfs g fuel no st = Ok st' ∧ pos_cfc g no st st'.
Proof.
  revert no st. induction fuel as [|f IH]; intros no st Hinv Hno Hpath HU Hf.
  { assert (Hnd : no ∉ dom (indices st)) by (by apply not_elem_of_dom).
    pose proof (restante_novo (universo g) (dom (indices st)) no HU Hnd). lia. }
  pose proof Hinv as (Ht1 & Ht2 & Ht3 & Ht4 & Ht5 & Ht6).
  assert (HnoP : no ∉ pilha st).
  { intros [i Hi]%Ht3. congruence. }
  cbn [dfs].
  set (st1 := Estado (S (index st)) (<[no := index st]> (indices st))
                     (<[no := index st]> (lowlinks st))
                     (no :: pilha st) ({[no]} ∪ na_pilha st) (cfc st)).
  destruct (vizinhos_cfc (dfs g f) f no st IH Hno Hpath (get g no []) st1)
    as (st2 & -> & Hl).
  { done. }
  { (* the state after the push *)
    split_and!.
    - unfold st1. split_and!; simpl.
      + intros x. rewrite elem_of_union, elem_of_singleton, elem_of_cons, Ht1. done.
      + by apply NoDup_cons.
      + intros x [->|Hx]%elem_of_cons.
        * rewrite lookup_insert_eq. by eexists.
        * rewrite lookup_insert_ne by (intros ->; done). by apply Ht3.
      + intros x i. destruct (decide (x = no)) as [->|Hne].
        * rewrite lookup_insert_eq. intros [= <-]. lia.
        * rewrite lookup_insert_ne by done. intros Hi%Ht4. lia.
      + intros x. destruct (decide (x = no)) as [->|Hne].
        * rewrite !lookup_insert_eq. by eexists.
        * rewrite !lookup_insert_ne by done. apply Ht5.
      + done.
    - unfold st1. split_and!; simpl.
      + intros x i Hi. rewrite lookup_insert_ne; [done|]. intros ->. congruence.
      + intros x [i Hi]. rewrite lookup_insert_ne; [done|]. intros ->. congruence.
      + intros x i. destruct (decide (x = no)) as [->|Hne].
        * rewrite lookup_insert_eq. intros [= <-]. done.
        * rewrite lookup_insert_ne by done. congruence.
      + lia.
    - unfold st1. simpl. by rewrite lookup_insert_eq.
    - exists []. unfold st1. simpl. split_and!; [done| |].
      + intros x Hx. by apply elem_of_nil in Hx.
      + exists (index st), no. rewrite !lookup_insert_eq.
        split_and!; [done|done|left|done|done]. }
  { assert (Hnd : no ∉ dom (indices st)) by (by apply not_elem_of_dom).
    pose proof (restante_novo (universo g) (dom (indices st)) no HU Hnd).
    unfold st1. simpl. rewrite dom_insert_L. lia. }
  destruct Hl as (Hinv2 & Hmol2 & Hino & M & HP & HM & l & y & Hl1 & Hl2 & Hy & HIy & Hnoy).
  pose proof Hinv2 as (Hu1 & Hu2 & Hu3 & Hu4 & Hu5 & Hu6).
  pose proof Hmol2 as (HI2 & HL2 & Hn2 & Hc2).
  cbn. unfold ler. rewrite Hl1, Hino. cbn.
  assert (HnoM : ∀ x, x ∈ M → indices st !! x = None).
  { intros x (_ & _ & i & Hi & Hlt)%HM.
    destruct (indices st !! x) as [j|] eqn:Hj; [|done].
    apply Ht4 in Hj as Hj'. apply HI2 in Hj. assert (i = j) by congruence. lia. }
  case_decide as Hroot.
  - (* [no] is the root of a component: it is popped *)
    subst l. rewrite HP.
    rewrite desempilhar_spec; [|by rewrite <-HP|]; last first.
    { intros x Hx. apply Hu1. rewrite HP.
      apply elem_of_app in Hx as [?|Hx]; apply elem_of_app; [by left|].
      apply list_elem_of_singleton in Hx as ->. right. left. }
    cbn.
    rewrite HP in Hu2. apply NoDup_app in Hu2 as (HndM & HMS & HndS).
    apply NoDup_cons in HndS as [HnoS HndS].
    assert (Hcomp : 1 < length (M ++ [no]) → componente_ok g (M ++ [no])).
    { intros Hlen. split_and!; [done| |].
      - apply NoDup_app. split_and!; [done| |apply NoDup_singleton].
        intros x Hx ->%list_elem_of_singleton. apply (HMS no Hx). left.
      - assert (Hto : ∀ u, u ∈ M ++ [no] → alcanca g u no ∧ alcanca g no u).
        { intros u [Hu|Hu]%elem_of_app.
          - destruct (HM u Hu) as (? & ? & _). done.
          - apply list_elem_of_singleton in Hu as ->. done. }
        intros u v Hu Hv. etrans; [by apply Hto|by apply Hto]. }
    assert (Hinv' : ∀ C, (∀ comp, comp ∈ C → componente_ok g comp) →
      inv_cfc g (Estado (index st2) (indices st2) (lowlinks st2) (pilha st)
                      (na_pilha st2 ∖ list_to_set (M ++ [no])) C)).
    { intros C HC. split_and!; simpl; [|done| |done|done|done].
      - intros x. rewrite elem_of_difference, Hu1, HP, elem_of_list_to_set.
        rewrite !elem_of_app, elem_of_cons, list_elem_of_singleton. split.
        + intros [[?|[?|?]] Hn]; [tauto|tauto|done].
        + intros Hx. split; [by auto|]. intros [Hx'| ->]; [|done].
          apply (HMS x Hx'). by right.
      - intros x Hx. apply Hu3. rewrite HP. apply elem_of_app. right. by right. }
    assert (Hpos : ∀ C, (∀ comp, comp ∈ C → componente_ok g comp) →
      pos_cfc g no st (Estado (index st2) (indices st2) (lowlinks st2) (pilha st)
                      (na_pilha st2 ∖ list_to_set (M ++ [no])) C)).
    { intros C HC. split_and!; [by apply Hinv'|done|done|].
      exists []. simpl. split_and!; [done| |by left].
      intros x Hx. by apply elem_of_nil in Hx. }
    case_decide as Hlen; eexists; (split; [done|]); apply Hpos.
    + intros comp [Hc|Hc]%elem_of_app; [by apply Hu6|].
      apply list_elem_of_singleton in Hc as ->. by apply Hcomp.
    + done.
  - (* [no] stays on the stack, below the root of its component *)
    exists st2. split; [done|]. split_and!; [done|done|done|].
    exists (M ++ [no]). split_and!.
    + rewrite HP. by rewrite <-(assoc_L (++)).
    + intros x [Hx|Hx]%elem_of_app.
      * split; [by apply HnoM|]. by apply HM.
      * apply list_elem_of_singleton in Hx as ->. done.
    + right. assert (HyS : y ∈ pilha st).
      { rewrite HP in Hy. apply elem_of_app in Hy as [Hy|[->|Hy]%elem_of_cons].
        - destruct (HM y Hy) as (_ & _ & i & Hi & Hlt).
          assert (i = l) by congruence. lia.
        - assert (l = index st) by congruence. done.
        - done. }
      split.
      * exists l, y. split_and!; [done|lia|done|done|done].
      * intros x Hx. exists y. split; [done|]. etrans; [|exact Hnoy].
        apply elem_of_app in Hx as [Hx|Hx].
        -- by apply HM.
        -- apply list_elem_of_singleton in Hx as ->. done.
Qed.

Lemma principal_cfc fuel ks st :
  size (universo g) ≤ fuel →
  (∀ k, k ∈ ks → k ∈ chaves g) →
  inv_cfc g st → pilha st = [] →
  ∃ st', principal g fuel ks st = Ok st' ∧ inv_cfc g st' ∧ pilha st' = [].
Proof.
  intros Hf. revert st. induction ks as [|k ks IH]; intros st Hks Hinv HP.
  { exists st. done. }
  assert (Hks' : ∀ k', k' ∈ ks → k' ∈ chaves g) by (intros; apply Hks; by right).
  cbn [principal]. case_decide as Hnew; [|by apply IH].
  destruct (dfs_cfc fuel k st) as (st1 & -> & Hpos); [done|done| | | |].
  { intros x. rewrite HP. intros Hx. by apply elem_of_nil in Hx. }
  { apply universo_chave, Hks. left. }
  { etrans; [apply restante_le|done]. }
  cbn. destruct Hpos as (Hinv1 & _ & _ & N & HP1 & HN & Hcase).
  apply IH; [done|done|].
  rewrite HP1, HP. destruct Hcase as [[-> _]|[(l & y & _ & _ & Hy & _) _]]; [done|].
  rewrite HP in Hy. by apply elem_of_nil in Hy.
Qed.

Lemma encontrar_cfc_com_spec fuel :
  size (universo g) ≤ fuel →
  ∃ cs, encontrar_cfc_com fuel g = Ok cs ∧ ∀ comp, comp ∈ cs → componente_ok g comp.
Proof.
  intros Hf. unfold encontrar_cfc_com.
  destruct (principal_cfc fuel (chaves g) inicial) as (st & -> & Hinv & _);
    [done|done| |done|].
  { unfold inicial. split_and!; simpl.
    - intros x. rewrite elem_of_nil. set_solver.
    - apply NoDup_nil_2.
    - intros x Hx. by apply elem_of_nil in Hx.
    - intros x i. by rewrite lookup_empty.
    - intros x [i Hi]. by rewrite lookup_empty in Hi.
    - intros comp Hc. by apply elem_of_nil in Hc. }
  cbn. exists (cfc st). split; [done|]. by destruct Hinv as (_ & _ & _ & _ & _ & H6).
Qed.
End tarjan.

(** ** The recursion bound of [ordem_instalacao] is immaterial *)

Section ordem_mono.
Variable g : Grafo.
Import OrdemInstalacao.




End ordem_mono.

(** ** [ordem_instalacao] under the interpreter's recursion limit *)

Section ordem_limite.
Import OrdemInstalacao.












Example ordem_cadeia_no_limite :
  ordem_instalacao_limitada 4 (cadeia 3) = Ok ["p"; "ap"; "aap"; "aaap"].
Proof. vm_compute. reflexivity. Qed.

Example ordem_cadeia_alem_do_limite :
  ordem_instalacao_limitada 3 (cadeia 3) = Falha RecursionError.
Proof. vm_compute. reflexivity. Qed.
End ordem_limite.

(** ** Names that the graph does not mention *)

Lemma caminho_destino g u v : caminho g u v → v ∈ destinos g.
Proof.
  intros H. induction H as [x y Hxy|x y z Hxy Hyz IH]; [|done].
  by eapply aresta_destino.
Qed.

Lemma get_ausente (g : Grafo) n : n ∉ chaves g → get g n [] = [].
Proof. intros Hn. unfold get. by rewrite (proj2 (procurar_None g n) Hn). Qed.

(** A verdict of [tem_ciclo] settles whether a concrete graph has a cycle. *)
Lemma tem_ciclo_falso g : TemCiclo.tem_ciclo g = Ok false → ¬ ciclico g.
Proof.
  intros Hr Hc. destruct (tem_ciclo_com_spec g (combustivel g)) as (b & Hb & Hiff).
  { pose proof (universo_size g). lia. }
  unfold TemCiclo.tem_ciclo in Hr. rewrite Hr in Hb. injection Hb as <-.
  by apply Hiff in Hc.
Qed.

(** ** More fixtures *)

Example tem_ciclo_laco : TemCiclo.tem_ciclo laco = Ok true.
Proof. vm_compute. reflexivity. Qed.

Example cfc_laco : EncontrarCfc.encontrar_cfc laco = Ok [].
Proof. vm_compute. reflexivity. Qed.

Example tem_ciclo_distante : TemCiclo.tem_ciclo ciclo_distante = Ok true.
Proof. vm_compute. reflexivity. Qed.

Example ordem_triangulo :
  OrdemInstalacao.ordem_instalacao triangulo = Ok ["A"; "B"; "C"].
Proof. vm_compute. reflexivity. Qed.

Example criticos_vazio :
  PacotesCriticos.encontrar_pacotes_criticos [] = Ok ([], 0, []).
Proof. vm_compute. reflexivity. Qed.

Example ordem_sem_chave :
  OrdemInstalacao.ordem_instalacao sem_chave = Ok ["D"; "A"; "C"; "B"].
Proof. vm_compute. reflexivity. Qed.

(** * The claims of the specification *)

(** C1.  [tem_ciclo] returns, and returns [True] exactly when the graph
    has a directed cycle, that is, a path of at least one edge from a name
    back to itself; a self-loop is such a cycle, and no assumption is made
    on where in the graph the cycle lies. *)
Theorem tem_ciclo_correto (g : Grafo) :
  ∃ b, TemCiclo.tem_ciclo g = Ok b
       ∧ (b = true ↔ ciclico g)
       ∧ ((∃ n, aresta g n n) → b = true).
Proof.
  destruct (tem_ciclo_com_spec g (combustivel g)) as (b & Hb & Hiff).
  { pose proof (universo_size g). lia. }
  exists b. split_and!; [done|done|].
  intros [n Hn]. apply Hiff. exists n. by apply tc_once.
Qed.

(** C2.  [encontrar_cfc] returns, and each component it returns has at
    least two members, all distinct, with a directed path of at least one
    edge from each member to each member; so a name that only has a
    self-loop is never a component of its own. *)
Theorem encontrar_cfc_correto (g : Grafo) :
  ∃ cs, EncontrarCfc.encontrar_cfc g = Ok cs
    ∧ ∀ comp, comp ∈ cs →
        2 ≤ length comp ∧ NoDup comp
        ∧ ∀ u v, u ∈ comp → v ∈ comp → caminho g u v ∧ caminho g v u.
Proof.
  destruct (encontrar_cfc_com_spec g (combustivel g)) as (cs & Hcs & Hok).
  { pose proof (universo_size g). lia. }
  exists cs. split; [done|]. intros comp (Hlen & Hnd & Hreach)%Hok.
  split_and!; [lia|done|].
  assert (Hpath : ∀ u v, u ∈ comp → v ∈ comp → caminho g u v).
  { intros u v Hu Hv. destruct (decide (u = v)) as [->|Hne].
    - (* through another member of the component *)
      assert (∃ w, w ∈ comp ∧ w ≠ v) as (w & Hw & Hwv).
      { destruct comp as [|x [|y comp]]; simpl in Hlen; [lia|lia|].
        apply NoDup_cons in Hnd as [Hx _].
        destruct (decide (x = v)) as [->|Hxv].
        - exists y. split; [right; left|]. intros ->. apply Hx. left.
        - exists x. split; [left|done]. }
      eapply tc_rtc_l; [by apply (Hreach v w)|].
      pose proof (Hreach w v Hw Hv) as Hwv'. by apply rtc_tc in Hwv' as [?|?].
    - pose proof (Hreach u v Hu Hv) as Huv. by apply rtc_tc in Huv as [?|?]. }
  intros u v Hu Hv. split; by apply Hpath.
Qed.

(** C3.  On a graph that satisfies the invariant of the data model,
    [ordem_instalacao] returns a permutation of the keys of the graph, each
    once.  The graph need not be acyclic for this. *)
Theorem ordem_instalacao_permutacao (g : Grafo) :
  dict_ok g → invariante g →
  ∃ o, OrdemInstalacao.ordem_instalacao g = Ok o ∧ NoDup o ∧ o ≡ₚ chaves g.
Proof.
  intros Hd Hinv.
  destruct (finalizacao_spec g (combustivel g)) as (O & HO & Hnd & _ & Hmem).
  { pose proof (universo_size g). lia. }
  exists (reverse O). unfold OrdemInstalacao.ordem_instalacao,
    OrdemInstalacao.ordem_instalacao_com. rewrite HO. simpl.
  split_and!; [done|by rewrite reverse_Permutation|].
  rewrite reverse_Permutation. apply NoDup_Permutation; [done|done|].
  intros x. rewrite Hmem. split; [|by left].
  intros [Hx|[u Hu]]; [done|]. by eapply Hinv, aresta_destino.
Qed.

Lemma ordem_instalacao_permutacao_witness :
  ∃ o, OrdemInstalacao.ordem_instalacao losango = Ok o ∧ NoDup o
       ∧ o ≡ₚ chaves losango.
Proof.
  apply (ordem_instalacao_permutacao losango).
  - unfold dict_ok. apply (bool_decide_unpack _). vm_compute. exact I.
  - unfold invariante. apply Forall_forall. apply (bool_decide_unpack _).
    vm_compute. exact I.
Defined.

(** C4.  [ordem_instalacao] returns the order in which the calls of [dfs]
    finish, reversed; on an acyclic graph with an edge from [a] to [b]
    ([a] depends on [b]), [b] finishes before [a], and so [a] stands
    before [b] in the list returned: each dependent before what it
    depends on.  No name is in the list twice, so the places are
    unambiguous. *)
Theorem ordem_instalacao_dependente_antes (g : Grafo) (a b : string) :
  ¬ ciclico g → aresta g a b →
  ∃ O, OrdemInstalacao.finalizacao (combustivel g) g = Ok O
       ∧ OrdemInstalacao.ordem_instalacao g = Ok (reverse O)
       ∧ NoDup (reverse O)
       ∧ antes b a O
       ∧ antes a b (reverse O).
Proof.
  intros Hac Hab.
  destruct (finalizacao_spec g (combustivel g)) as (O & HO & Hnd & Hord & Hmem).
  { pose proof (universo_size g). lia. }
  exists O. unfold OrdemInstalacao.ordem_instalacao,
    OrdemInstalacao.ordem_instalacao_com. rewrite HO. simpl.
  assert (Hnd' : NoDup (reverse O)) by (by rewrite reverse_Permutation).
  assert (Ha : a ∈ O) by (apply Hmem; left; by eapply aresta_chave).
  apply list_elem_of_split in Ha as (l1 & l2 & ->).
  destruct (Hord l1 a l2 b eq_refl Hab) as [Hb|Hb].
  - apply list_elem_of_split in Hb as (p1 & p2 & ->).
    split_and!; [done|done|done| |].
    + exists p1, p2, l2. by rewrite <-(assoc_L (++)).
    + exists (reverse l2), (reverse p2), (reverse p1).
      repeat (rewrite reverse_app || rewrite reverse_cons).
      rewrite <-!(assoc_L (++)). done.
  - exfalso. apply Hac. exists a. eapply tc_rtc_r; [by apply tc_once|done].
Qed.

Lemma ordem_instalacao_dependente_antes_witness :
  ∃ O, OrdemInstalacao.finalizacao (combustivel losango) losango = Ok O
       ∧ OrdemInstalacao.ordem_instalacao losango = Ok (reverse O)
       ∧ NoDup (reverse O)
       ∧ antes "B" "A" O
       ∧ antes "A" "B" (reverse O).
Proof.
  apply (ordem_instalacao_dependente_antes losango "A" "B").
  - apply tem_ciclo_falso. vm_compute. reflexivity.
  - unfold aresta. apply (bool_decide_unpack _). vm_compute. exact I.
Defined.

(** C5, as the specification states it, fails on the empty graph: the
    list returned there is empty. *)
Lemma criticos_grafo_vazio : ¬ criticos_spec [].
Proof.
  intros (criticos & maximo & tabela & Hr & Hne & _).
  vm_compute in Hr. injection Hr as <- _ _. done.
Qed.

(** C5, amended.  On a graph with at least one key,
    [encontrar_pacotes_criticos] returns a list that is not empty and holds
    exactly the names whose in-degree is the integer returned, no in-degree
    of the table is larger than that integer, and the in-degrees of the
    table add up to the number of edges, each repetition of an edge
    counted: the sum of the lengths of the neighbour lists when no key is
    repeated. *)
Theorem criticos_grafo_nao_vazio (g : Grafo) :
  g ≠ [] →
  criticos_spec g
  ∧ (dict_ok g → num_arestas g = sum_list (length <$> g.*2)).
Proof.
  intros Hg. split.
  - by apply criticos_nao_vazio.
  - apply num_arestas_dict_ok.
Qed.

Lemma criticos_grafo_nao_vazio_witness :
  criticos_spec losango
  ∧ (dict_ok losango → num_arestas losango = sum_list (length <$> losango.*2)).
Proof. apply (criticos_grafo_nao_vazio losango). unfold losango. discriminate. Defined.

(** C6.  [consultar_dependencias] returns exactly the names reachable
    from [n] by a path of at least one edge; [n] itself is among them
    exactly when it lies on a cycle. *)
Theorem consultar_dependencias_alcance (g : Grafo) (n : string) :
  ∃ s, ConsultarDependencias.consultar_dependencias g n = Ok s
       ∧ (∀ m, m ∈ s ↔ caminho g n m)
       ∧ (n ∈ s ↔ caminho g n n).
Proof.
  destruct (consultar_dependencias_com_spec g (universo g)
              (universo_aresta g) (combustivel g) n) as (s & Hs & Hmem).
  { apply universo_size. }
  exists s. split_and!; [done|done|apply Hmem].
Qed.

(** C7.  [simular_remocao] returns exactly the names from which [n] is
    reachable by a path of at least one edge; the graph it builds has an
    edge from [v] to [u] exactly for the edges from [u] to [v], and the
    result is that of [consultar_dependencias] on the graph built. *)
Theorem simular_remocao_alcance (g : Grafo) (n : string) :
  ∃ s inv, SimularRemocao.simular_remocao g n = Ok s
    ∧ (∀ m, m ∈ s ↔ caminho g m n)
    ∧ SimularRemocao.inverter g (chaves g) [] = Ok inv
    ∧ (∀ u v, aresta inv v u ↔ aresta g u v)
    ∧ ConsultarDependencias.consultar_dependencias inv n = Ok s.
Proof.
  destruct (simular_remocao_com_spec g (combustivel g) n)
    as (s & inv & Hs & Hinv & Har & Hmem & Hmem'); [apply universo_size|].
  exists s, inv. split_and!; [done|done|done|done|].
  destruct (consultar_dependencias_com_spec inv (universo inv)
              (universo_aresta inv) (combustivel inv) n) as (s' & Hs' & Hmem2).
  { apply universo_size. }
  unfold ConsultarDependencias.consultar_dependencias. rewrite Hs'. f_equal.
  apply set_eq. intros m. by rewrite Hmem2, Hmem'.
Qed.

(** C8.  For a name that is neither a key nor a destination of the graph,
    both queries return the empty set. *)
Theorem consultas_de_no_ausente (g : Grafo) (n : string) :
  n ∉ chaves g → n ∉ destinos g →
  ConsultarDependencias.consultar_dependencias g n = Ok ∅
  ∧ SimularRemocao.simular_remocao g n = Ok ∅.
Proof.
  intros Hk Hd. split.
  - unfold ConsultarDependencias.consultar_dependencias,
      ConsultarDependencias.consultar_dependencias_com, combustivel.
    simpl. by rewrite get_ausente.
  - destruct (simular_remocao_com_spec g (combustivel g) n)
      as (s & inv & Hs & _ & _ & Hmem & _); [apply universo_size|].
    unfold SimularRemocao.simular_remocao. rewrite Hs. f_equal.
    apply set_eq. intros m. rewrite Hmem. split.
    + intros Hp%caminho_destino. done.
    + intros Hm. set_solver.
Qed.

Lemma consultas_de_no_ausente_witness :
  ConsultarDependencias.consultar_dependencias losango "Z" = Ok ∅
  ∧ SimularRemocao.simular_remocao losango "Z" = Ok ∅.
Proof.
  apply (consultas_de_no_ausente losango "Z").
  - apply (bool_decide_unpack _). vm_compute. exact I.
  - apply (bool_decide_unpack _). vm_compute. exact I.
Defined.



(** C10.  On every mapping, also one with a destination that is no key,
    each of the six analyses returns a result: no [KeyError] (nor any other
    exception of the model) is raised and the recursion bound is not
    reached.  A name that is no key reads as a name without successors. *)
Theorem analises_sem_erro (g : Grafo) (n : string) :
  (∀ v, v ∉ chaves g → get g v [] = [])
  ∧ (∃ b, TemCiclo.tem_ciclo g = Ok b)
  ∧ (∃ cs, EncontrarCfc.encontrar_cfc g = Ok cs)
  ∧ (∃ o, OrdemInstalacao.ordem_instalacao g = Ok o)
  ∧ (∃ r, PacotesCriticos.encontrar_pacotes_criticos g = Ok r)
  ∧ (∃ s, ConsultarDependencias.consultar_dependencias g n = Ok s)
  ∧ (∃ s, SimularRemocao.simular_remocao g n = Ok s).
Proof.
  pose proof (universo_size g) as HU. split_and!.
  - apply get_ausente.
  - destruct (tem_ciclo_com_spec g (combustivel g)) as (b & Hb & _); [lia|].
    by exists b.
  - destruct (encontrar_cfc_com_spec g (combustivel g)) as (cs & Hcs & _); [lia|].
    by exists cs.
  - destruct (finalizacao_spec g (combustivel g)) as (O & HO & _); [lia|].
    exists (reverse O). unfold OrdemInstalacao.ordem_instalacao,
      OrdemInstalacao.ordem_instalacao_com. by rewrite HO.
  - destruct (decide (g = [])) as [->|Hne].
    + by eexists.
    + destruct (criticos_nao_vazio g Hne) as (c & m & t & Hr & _).
      by eexists.
  - destruct (consultar_dependencias_com_spec g (universo g)
                (universo_aresta g) (combustivel g) n) as (s & Hs & _); [done|].
    by exists s.
  - destruct (simular_remocao_com_spec g (combustivel g) n)
      as (s & inv & Hs & _); [done|].
    by exists s.
Qed.

(** * Further properties of the code *)

(** ** Loading the file ([carregar_arquivo]) *)

Example carregar_losango :
  CarregarArquivo.carregar_arquivo ["A B C"; "B D"; "  C D  "; ""; "E"] = Ok losango.
Proof. vm_compute. reflexivity. Qed.

Example carregar_espaco_duplo :
  CarregarArquivo.carregar_arquivo ["A  B"] = Ok [("A", [""; "B"]); ("", []); ("B", [])].
Proof. vm_compute. reflexivity. Qed.

Lemma chaves_procurar {V} (d : list (string * V)) k :
  k ∈ d.*1 ↔ is_Some (procurar d k).
Proof.
  split.
  - intros [v Hv]%procurar_chave. by exists v.
  - intros [v Hv]. destruct (decide (k ∈ d.*1)) as [|Hn]; [done|].
    apply procurar_None in Hn. congruence.
Qed.

Lemma procurar_app {V} (d : list (string * V)) k v k' :
  procurar (d ++ [(k, v)]) k'
  = match procurar d k' with
    | Some x => Some x
    | None => if decide (k' = k) then Some v else None
    end.
Proof.
  induction d as [|[k0 v0] d IH]; simpl; [done|].
  destruct (decide (k' = k0)); done.
Qed.

Lemma split_nao_vazio s : CarregarArquivo.split s ≠ [].
Proof.
  destruct s as [|c s]; simpl; [done|].
  case_decide; [done|]. by destruct (CarregarArquivo.split s).
Qed.

Section carregar.
Import CarregarArquivo.

Lemma procurar_tocar g k k' :
  procurar (tocar g k) k'
  = match procurar g k' with
    | Some v => Some v
    | None => if decide (k' = k) then Some [] else None
    end.
Proof.
  unfold tocar. destruct (procurar g k) as [v|] eqn:Hk.
  - destruct (procurar g k') as [v'|] eqn:Hk'; [done|].
    case_decide; [|done]. congruence.
  - apply procurar_app.
Qed.

Lemma get_tocar g k u : get (tocar g k) u [] = get g u [].
Proof.
  unfold get. rewrite procurar_tocar.
  destruct (procurar g u); [done|]. by case_decide.
Qed.

Lemma dict_ok_tocar g k : dict_ok g → dict_ok (tocar g k).
Proof.
  unfold tocar, dict_ok. destruct (procurar g k) eqn:Hk; [done|].
  intros Hd. rewrite fmap_app. apply NoDup_app. split_and!; [done| |].
  - intros x Hx ->%list_elem_of_singleton. by apply procurar_None in Hk.
  - apply NoDup_singleton.
Qed.

(** One line: its dependencies are appended to the list of its first word,
    and every word of a line with dependencies becomes a key. *)
Lemma dependencias_spec origem resto deps g :
  ∃ g', dependencias (origem :: resto) deps g = Ok g'
    ∧ (∀ u, get g' u [] = get g u [] ++ (if decide (u = origem) then deps else []))
    ∧ (∀ k, is_Some (procurar g' k)
            ↔ is_Some (procurar g k) ∨ (deps ≠ [] ∧ k = origem) ∨ k ∈ deps)
    ∧ (dict_ok g → dict_ok g').
Proof.
  revert g. induction deps as [|d deps IH]; intros g.
  - exists g. split_and!; [done| | |done].
    + intros u. case_decide; by rewrite app_nil_r.
    + intros k. rewrite elem_of_nil. naive_solver.
  - cbn.
    destruct (IH (tocar (atribuir g origem (get g origem [] ++ [d])) d))
      as (g' & -> & Hget & Hkeys & Hok).
    exists g'. split_and!; [done| | |].
    + intros u. rewrite Hget, get_tocar, get_atribuir.
      case_decide; [|by rewrite !app_nil_r].
      subst u. by rewrite <-(assoc_L (++)).
    + intros k. rewrite Hkeys, procurar_tocar, procurar_atribuir, elem_of_cons.
      assert (Hcons : d :: deps ≠ []) by done.
      destruct (decide (k = origem)) as [->|Hko];
        [|destruct (procurar g k) as [v|] eqn:Hk;
           [|destruct (decide (k = d)) as [->|Hkd]]];
        rewrite !is_Some_alt; tauto.
    + intros Hd. by apply Hok, dict_ok_tocar, dict_ok_atribuir.
Qed.

Lemma declaradas_cons l arquivo u :
  declaradas (l :: arquivo) u
  = (if decide (head (palavras l) = Some u) then drop 1 (palavras l) else [])
    ++ declaradas arquivo u.
Proof.
  unfold declaradas. rewrite fmap_cons, filter_cons.
  case_decide; [by rewrite fmap_cons|done].
Qed.

Lemma linhas_spec arquivo g :
  ∃ g', linhas arquivo g = Ok g'
    ∧ (∀ u, get g' u [] = get g u [] ++ declaradas arquivo u)
    ∧ (∀ k, is_Some (procurar g' k)
            ↔ is_Some (procurar g k)
              ∨ ∃ l, l ∈ arquivo ∧ 2 ≤ length (palavras l) ∧ k ∈ palavras l)
    ∧ (dict_ok g → dict_ok g').
Proof.
  revert g. induction arquivo as [|l arquivo IH]; intros g.
  - exists g. split_and!; [done| | |done].
    + intros u. unfold declaradas. simpl. by rewrite app_nil_r.
    + intros k. split; [by left|]. intros [?|(l & Hl & _)]; [done|].
      by apply elem_of_nil in Hl.
  - cbn [linhas]. fold (palavras l).
    destruct (palavras l) as [|origem resto] eqn:Hp.
    { by apply split_nao_vazio in Hp. }
    change (drop 1 (origem :: resto)) with resto.
    destruct (dependencias_spec origem resto resto g) as (g1 & -> & Hget1 & Hk1 & Hok1).
    cbn [mbind res_bind]. destruct (IH g1) as (g' & -> & Hget & Hk & Hok).
    exists g'. split_and!; [done| | |by auto].
    + intros u. rewrite Hget, Hget1, declaradas_cons, Hp.
      change (drop 1 (origem :: resto)) with resto.
      change (head (origem :: resto)) with (Some origem).
      rewrite <-(assoc_L (++)). f_equal. f_equal.
      destruct (decide (u = origem)) as [->|Hne].
      * by rewrite decide_True.
      * rewrite decide_False; [done|]. congruence.
    + intros k. rewrite Hk, Hk1. split.
      * intros [[?|[[Hr ->]|Hr]]|(l' & Hl' & ?)].
        -- by left.
        -- right. exists l. rewrite Hp. split_and!; [left| |left].
           destruct resto; [done|simpl; lia].
        -- right. exists l. rewrite Hp. split_and!; [left| |by right].
           destruct resto; [by apply elem_of_nil in Hr|simpl; lia].
        -- right. exists l'. split; [by right|done].
      * intros [?|(l' & [->|Hl']%elem_of_cons & Hlen & Hin)].
        -- by auto.
        -- rewrite Hp in Hlen, Hin. left. right.
           apply elem_of_cons in Hin as [->|Hin]; [|by right].
           left. split; [|done]. destruct resto; [simpl in Hlen; lia|done].
        -- right. by exists l'.
Qed.

Lemma destinos_dict_ok (g : Grafo) v :
  dict_ok g → v ∈ destinos g ↔ ∃ u, aresta g u v.
Proof.
  intros Hd. split.
  - unfold destinos. intros (vs & Hv & Hvs)%list_elem_of_join.
    apply list_elem_of_fmap in Hvs as ([k vs'] & -> & Hk). exists k.
    unfold aresta, get. by rewrite (procurar_NoDup g k vs').
  - intros [u Hu]. by eapply aresta_destino.
Qed.

Lemma carregar_arquivo_spec arquivo :
  ∃ g, carregar_arquivo arquivo = Ok g
    ∧ dict_ok g ∧ invariante g
    ∧ (∀ u, get g u [] = declaradas arquivo u)
    ∧ (∀ k, k ∈ chaves g
            ↔ ∃ l, l ∈ arquivo ∧ 2 ≤ length (palavras l) ∧ k ∈ palavras l).
Proof.
  destruct (linhas_spec arquivo []) as (g & Hg & Hget & Hk & Hok).
  assert (Hd : dict_ok g) by (apply Hok, NoDup_nil_2).
  assert (Hkeys : ∀ k, k ∈ chaves g
            ↔ ∃ l, l ∈ arquivo ∧ 2 ≤ length (palavras l) ∧ k ∈ palavras l).
  { intros k. unfold chaves. rewrite chaves_procurar, Hk. split; [|by right].
    intros [[? [=]]|?]; done. }
  exists g. split_and!; [done|done| |done|done].
  intros v [u Hu]%(destinos_dict_ok g v Hd).
  unfold aresta in Hu. rewrite Hget in Hu. simpl in Hu.
  unfold declaradas in Hu. apply list_elem_of_join in Hu as (ds & Hv & Hds).
  apply list_elem_of_fmap in Hds as (ws & -> & Hws).
  apply list_elem_of_filter in Hws as [Hh Hws].
  apply list_elem_of_fmap in Hws as (l & -> & Hl).
  apply Hkeys. exists l. split; [done|].
  destruct (palavras l) as [|o [|d ds]]; simpl in *.
  - by apply elem_of_nil in Hv.
  - by apply elem_of_nil in Hv.
  - split; [lia|]. by right.
Qed.
End carregar.

(** ** In-degrees ([encontrar_pacotes_criticos]), entry by entry *)

Lemma elem_of_chaves_atribuir {V} (d : list (string * V)) k v x :
  x ∈ (atribuir d k v).*1 ↔ x ∈ d.*1 ∨ x = k.
Proof.
  rewrite chaves_atribuir. case_decide as Hk.
  - split; [by left|]. intros [?| ->]; done.
  - rewrite elem_of_app, list_elem_of_singleton. done.
Qed.

Lemma dict_ok_procurar {V} (d : list (string * V)) k v :
  dict_ok d → (k, v) ∈ d ↔ procurar d k = Some v.
Proof.
  intros Hd. split; [by apply procurar_NoDup|apply procurar_Some].
Qed.

Section graus.
Import PacotesCriticos.

Lemma iniciar_destinos_exato ds (d : Tabela) :
  (∀ x, get (iniciar_destinos ds d) x 0 = get d x 0)
  ∧ (∀ x, x ∈ (iniciar_destinos ds d).*1 ↔ x ∈ d.*1 ∨ x ∈ ds).
Proof.
  revert d. induction ds as [|y ds IH]; intros d; simpl.
  - split; [done|]. intros x. rewrite elem_of_nil. tauto.
  - destruct (IH (atribuir d y (get d y 0))) as (Hget & Hk). split.
    + intros x. rewrite Hget, get_atribuir. case_decide; by subst.
    + intros x. rewrite Hk, elem_of_chaves_atribuir, elem_of_cons. tauto.
Qed.

Lemma contar_destinos_exato ds (d : Tabela) :
  (∀ x, get (contar_destinos ds d) x 0 = get d x 0 + length (filter (x =.) ds))
  ∧ (∀ x, x ∈ (contar_destinos ds d).*1 ↔ x ∈ d.*1 ∨ x ∈ ds).
Proof.
  revert d. induction ds as [|y ds IH]; intros d; simpl.
  - split; [intros x; by rewrite Nat.add_0_r|].
    intros x. rewrite elem_of_nil. tauto.
  - destruct (IH (atribuir d y (get d y 0 + 1))) as (Hget & Hk). split.
    + intros x. rewrite Hget, get_atribuir, filter_cons.
      destruct (decide (x = y)) as [->|Hne]; simpl; lia.
    + intros x. rewrite Hk, elem_of_chaves_atribuir, elem_of_cons. tauto.
Qed.

Lemma iniciar_exato g ks (d : Tabela) :
  (∀ k, k ∈ ks → k ∈ chaves g) →
  ∃ d', iniciar g ks d = Ok d'
    ∧ (∀ x, get d' x 0 = get d x 0)
    ∧ (∀ x, x ∈ d'.*1 ↔ x ∈ d.*1 ∨ x ∈ ks ∨ ∃ k, k ∈ ks ∧ aresta g k x).
Proof.
  revert d. induction ks as [|k ks IH]; intros d Hks; simpl.
  - exists d. split_and!; [done|done|]. intros x. split; [by left|].
    intros [?|[Hx|(k & Hk & _)]]; [done| |]; by apply elem_of_nil in Hx || apply elem_of_nil in Hk.
  - destruct (item_chave g k) as (ds & -> & Hds); [apply Hks; left|]. simpl.
    set (d1 := atribuir d k (get d k 0)).
    destruct (iniciar_destinos_exato ds d1) as (Hget1 & Hk1).
    destruct (IH (iniciar_destinos ds d1)) as (d' & -> & Hget & Hk').
    { intros k' Hk'. apply Hks. by right. }
    assert (Har : ∀ w, aresta g k w ↔ w ∈ ds).
    { intros w. unfold aresta, get. by rewrite Hds. }
    exists d'. split_and!; [done| |].
    + intros x. rewrite Hget, Hget1. unfold d1. rewrite get_atribuir.
      case_decide; by subst.
    + intros x. rewrite Hk', Hk1. unfold d1.
      rewrite elem_of_chaves_atribuir, elem_of_cons. split.
      * intros [[[?| ->]|Hx]|[?|(k' & ? & ?)]]; eauto.
        -- right. right. exists k. split; [left|by apply Har].
        -- right. right. exists k'. split; [by right|done].
      * intros [?|[[->|?]|(k' & [->|?]%elem_of_cons & Ha)]]; eauto 6.
        left. right. by apply Har.
Qed.

Lemma contar_exato g ks (d : Tabela) :
  (∀ k, k ∈ ks → k ∈ chaves g) →
  ∃ d', contar g ks d = Ok d'
    ∧ (∀ x, get d' x 0
            = get d x 0 + sum_list ((λ k, length (filter (x =.) (get g k []))) <$> ks))
    ∧ (∀ x, x ∈ d'.*1 ↔ x ∈ d.*1 ∨ ∃ k, k ∈ ks ∧ aresta g k x).
Proof.
  revert d. induction ks as [|k ks IH]; intros d Hks; csimpl.
  - exists d. split_and!; [done|intros x; lia|]. intros x. split; [by left|].
    intros [?|(k & Hk & _)]; [done|]. by apply elem_of_nil in Hk.
  - destruct (item_chave g k) as (ds & -> & Hds); [apply Hks; left|]. simpl.
    destruct (contar_destinos_exato ds d) as (Hget1 & Hk1).
    destruct (IH (contar_destinos ds d)) as (d' & -> & Hget & Hk').
    { intros k' Hk'. apply Hks. by right. }
    assert (Hgk : get g k [] = ds) by (unfold get; by rewrite Hds).
    exists d'. split_and!; [done| |].
    + intros x. rewrite Hget, Hget1, Hgk. lia.
    + intros x. rewrite Hk', Hk1. split.
      * intros [[?|Hx]|(k' & ? & ?)]; eauto.
        -- right. exists k. split; [left|]. unfold aresta. by rewrite Hgk.
        -- right. exists k'. split; [by right|done].
      * intros [?|(k' & [->|?]%elem_of_cons & Ha)]; eauto.
        left. right. unfold aresta in Ha. by rewrite Hgk in Ha.
Qed.

(** The table holds, for each name the graph knows and no other, the
    number of edges that end at it. *)
Lemma tabela_exata g :
  ∃ criticos maximo (tabela : Tabela),
    encontrar_pacotes_criticos g = Ok (criticos, maximo, tabela)
    ∧ dict_ok tabela
    ∧ (∀ x, x ∈ tabela.*1 ↔ conhecido g x)
    ∧ (∀ x, get tabela x 0 = grau_entrada g x)
    ∧ criticos = (filter (λ pg, pg.2 = maximo) tabela).*1
    ∧ (∀ k v, (k, v) ∈ tabela → v ≤ maximo)
    ∧ (g ≠ [] → criticos ≠ []).
Proof.
  unfold encontrar_pacotes_criticos.
  destruct (iniciar_exato g (chaves g) []) as (d0 & Hd0 & Hget0 & Hk0); [done|].
  destruct (contar_exato g (chaves g) d0) as (d & Hd & Hget & Hk); [done|].
  destruct (iniciar_spec g (chaves g) []) as (d0' & Hd0' & _ & Hok0 & _); [done|].
  assert (d0' = d0) by congruence. subst d0'.
  destruct (contar_spec g (chaves g) d0) as (d' & Hd' & _ & Hok & _); [done|].
  assert (d' = d) by congruence. subst d'.
  assert (Hdok : dict_ok d) by (apply Hok, Hok0, NoDup_nil_2).
  assert (Hkeys : ∀ x, x ∈ d.*1 ↔ conhecido g x).
  { intros x. rewrite Hk, Hk0. unfold conhecido. split.
    - intros [[Hx|[?|(k & _ & ?)]]|(k & _ & ?)]; eauto.
      by apply elem_of_nil in Hx.
    - intros [?|(k & Hk')]; [by auto|]. right. exists k.
      split; [by eapply aresta_chave|done]. }
  assert (Hgrau : ∀ x, get d x 0 = grau_entrada g x).
  { intros x. rewrite Hget, Hget0. done. }
  destruct (decide (g = [])) as [->|Hg].
  - vm_compute in Hd0. injection Hd0 as <-. vm_compute in Hd. injection Hd as <-.
    exists [], 0, []. split_and!; try done.
    intros k v Hkv. by apply elem_of_nil in Hkv.
  - destruct (criticos_nao_vazio g Hg) as (c & m & t & Hr & Hne & _ & _ & Hmax & _).
    unfold encontrar_pacotes_criticos in Hr. rewrite Hd0 in *. cbn in Hr |- *.
    rewrite Hd in *. cbn in Hr |- *.
    destruct (decide (d = [])) as [->|Hdn].
    { injection Hr as <- _ _. done. }
    destruct (py_max d.*2) as [mx| |] eqn:Hmx; cbn in Hr |- *; [|done|done].
    injection Hr as <- <- <-.
    eexists _, _, _. split_and!; done.
Qed.
End graus.

(** ** Strongly connected components ([encontrar_cfc]): completeness *)

Section tarjan_completo.
Variable g : Grafo.
Import EncontrarCfc.

(** What one turn of the loop of [dfs] does. *)
Lemma vizinhos_cons_inv (rec : string → estado → res estado) no v vs st st' :
  vizinhos rec no (v :: vs) st = Ok st' →
  ∃ st2, vizinhos rec no [v] st = Ok st2 ∧ vizinhos rec no vs st2 = Ok st'.
Proof.
  cbn [vizinhos]. case_decide; [|case_decide].
  - destruct (rec v st) as [st1| |]; cbn; [|done|done].
    destruct (ler (lowlinks st1) no) as [a| |]; cbn; [|done|done].
    destruct (ler (lowlinks st1) v) as [b| |]; cbn; [|done|done].
    intros H'. by eexists.
  - destruct (ler (lowlinks st) no) as [a| |]; cbn; [|done|done].
    destruct (ler (indices st) v) as [b| |]; cbn; [|done|done].
    intros H'. by eexists.
  - intros H'. by eexists.
Qed.

Lemma ler_Ok d k v : ler d k = Ok v → d !! k = Some v.
Proof. unfold ler. destruct (d !! k); [|done]. by intros [= ->]. Qed.

Lemma vizinhos_um_inv (rec : string → estado → res estado) no v st st2 :
  vizinhos rec no [v] st = Ok st2 →
  (indices st !! v = None
   ∧ ∃ st1 a b, rec v st = Ok st1 ∧ lowlinks st1 !! no = Some a
       ∧ lowlinks st1 !! v = Some b ∧ st2 = com_lowlink st1 no (a `min` b))
  ∨ (is_Some (indices st !! v) ∧ v ∈ na_pilha st
     ∧ ∃ a b, lowlinks st !! no = Some a ∧ indices st !! v = Some b
         ∧ st2 = com_lowlink st no (a `min` b))
  ∨ (is_Some (indices st !! v) ∧ (v ∉ na_pilha st) ∧ st2 = st).
Proof.
  cbn [vizinhos]. case_decide as Hn; [|case_decide as Hp].
  - destruct (rec v st) as [st1| |]; cbn; [|done|done].
    destruct (ler (lowlinks st1) no) as [a| |] eqn:Ha; cbn; [|done|done].
    destruct (ler (lowlinks st1) v) as [b| |] eqn:Hb; cbn; [|done|done].
    intros [= <-]. left. split; [done|].
    exists st1, a, b. split_and!; [done|by apply ler_Ok|by apply ler_Ok|done].
  - destruct (ler (lowlinks st) no) as [a| |] eqn:Ha; cbn; [|done|done].
    destruct (ler (indices st) v) as [b| |] eqn:Hb; cbn; [|done|done].
    intros [= <-]. right. left.
    split_and!; [by apply not_eq_None_Some|done|].
    exists a, b. split_and!; [by apply ler_Ok|by apply ler_Ok|done].
  - intros [= <-]. right. right. split_and!; [by apply not_eq_None_Some|done|done].
Qed.

Lemma inv_completo_com_lowlink st no v :
  inv_completo g st → inv_completo g (com_lowlink st no v).
Proof. intros H'. exact H'. Qed.

Lemma dois_membros (comp : list string) u v :
  u ∈ comp → v ∈ comp → u ≠ v → 1 < length comp.
Proof.
  intros Hu Hv Hne. destruct comp as [|x [|y comp]]; simpl; [|exfalso|lia].
  - by apply elem_of_nil in Hu.
  - apply list_elem_of_singleton in Hu, Hv. congruence.
Qed.

(** A set closed under the edges holds what its names reach. *)
Lemma retirado_alcanca st x y :
  (∀ x y, retirado st x → aresta g x y → retirado st y) →
  retirado st x → alcanca g x y → retirado st y.
Proof.
  intros Hcl Hx Hp. induction Hp as [|x y z Hxy Hyz IH]; [done|].
  apply IH. by eapply Hcl.
Qed.

Lemma laco_cfc_entrada no st :
  inv_cfc g st → indices st !! no = None → laco_cfc g no st (entrada no st).
Proof.
  intros (Ht1 & Ht2 & Ht3 & Ht4 & Ht5 & Ht6) Hno.
  assert (HnoP : no ∉ pilha st).
  { intros [i Hi]%Ht3. congruence. }
  split_and!.
  - split_and!; simpl.
    + intros x. rewrite elem_of_union, elem_of_singleton, elem_of_cons, Ht1. done.
    + by apply NoDup_cons.
    + intros x [->|Hx]%elem_of_cons.
      * rewrite lookup_insert_eq. by eexists.
      * rewrite lookup_insert_ne by (intros ->; done). by apply Ht3.
    + intros x i. destruct (decide (x = no)) as [->|Hne].
      * rewrite lookup_insert_eq. intros [= <-]. lia.
      * rewrite lookup_insert_ne by done. intros Hi%Ht4. lia.
    + intros x. destruct (decide (x = no)) as [->|Hne].
      * rewrite !lookup_insert_eq. by eexists.
      * rewrite !lookup_insert_ne by done. apply Ht5.
    + done.
  - split_and!; simpl.
    + intros x i Hi. rewrite lookup_insert_ne; [done|]. intros ->. congruence.
    + intros x [i Hi]. rewrite lookup_insert_ne; [done|]. intros ->. congruence.
    + intros x i. destruct (decide (x = no)) as [->|Hne].
      * rewrite lookup_insert_eq. intros [= <-]. done.
      * rewrite lookup_insert_ne by done. congruence.
    + lia.
  - simpl. by rewrite lookup_insert_eq.
  - exists []. simpl. split_and!; [done| |].
    + intros x Hx. by apply elem_of_nil in Hx.
    + exists (index st), no. rewrite !lookup_insert_eq.
      split_and!; [done|done|left|done|done].
Qed.

Lemma laco_completo_entrada no st :
  inv_cfc g st → inv_completo g st → indices st !! no = None →
  laco_completo g no st (entrada no st).
Proof.
  intros (Ht1 & Ht2 & Ht3 & Ht4 & Ht5 & Ht6) (Hc1 & Hc2 & Hc3 & Hc4) Hno.
  assert (Hret : ∀ x, retirado (entrada no st) x ↔ retirado st x).
  { intros x. unfold retirado. simpl. destruct (decide (x = no)) as [->|Hne].
    - rewrite lookup_insert_eq, Hno. split.
      + intros [_ Hn]. exfalso. apply Hn. left.
      + intros [[? [=]] _].
    - rewrite lookup_insert_ne by done. rewrite not_elem_of_cons. tauto. }
  split.
  - split_and!.
    + intros x y Hx%Hret Hxy. apply Hret. by eapply Hc1.
    + intros x Hx%Hret. by apply Hc2.
    + intros comp Hcomp. destruct (Hc3 comp Hcomp) as [? Hm]. split; [done|].
      intros x Hx. by apply Hret, Hm.
    + done.
  - intros M HM. simpl in HM.
    change (no :: pilha st) with ([] ++ no :: pilha st) in HM at 1.
    apply app_inv_tail in HM as <-. split.
    + intros x y Hx. by apply elem_of_nil in Hx.
    + intros l x y i _ Hx. by apply elem_of_nil in Hx.
Qed.

Lemma vizinhos_completo f no st0 :
  (∀ v st st', inv_cfc g st → inv_completo g st → indices st !! v = None →
     (∀ x, x ∈ pilha st → alcanca g x v) → v ∈ universo g →
     restante (universo g) (dom (indices st)) ≤ f →
     dfs g f v st = Ok st' → pos_completo g v st st') →
  inv_cfc g st0 → indices st0 !! no = None →
  (∀ x, x ∈ pilha st0 → alcanca g x no) →
  ∀ vs st st', (∀ v, v ∈ vs → aresta g no v) →
    laco_cfc g no st0 st → laco_completo g no st0 st →
    restante (universo g) (dom (indices st)) ≤ f →
    vizinhos (dfs g f) no vs st = Ok st' →
    laco_cfc g no st0 st' ∧ laco_completo g no st0 st'
    ∧ (∀ x i, indices st !! x = Some i → indices st' !! x = Some i)
    ∧ (∀ l l', lowlinks st !! no = Some l → lowlinks st' !! no = Some l' → l' ≤ l)
    ∧ (∀ v, v ∈ vs →
         descoberto st' v
         ∧ ∀ l i, lowlinks st' !! no = Some l → v ∈ pilha st0 →
             indices st' !! v = Some i → l ≤ i).
Proof.
  intros IHf Hinv0 Hno0 Hpath0.
  induction vs as [|v vs IH]; intros st st' Hvs Hl Hlc Hf Hrun.
  { injection Hrun as <-. split_and!; [done|done|done| |].
    - intros l l' H1 H2. assert (l = l') by congruence. lia.
    - intros v Hv. by apply elem_of_nil in Hv. }
  assert (Hv : aresta g no v) by (apply Hvs; left).
  assert (Hvs' : ∀ v', v' ∈ vs → aresta g no v') by (intros; apply Hvs; by right).
  apply vizinhos_cons_inv in Hrun as (st2 & Hum & Hrun).
  (* the state after this turn satisfies the invariant of the loop *)
  destruct (vizinhos_cfc g (dfs g f) f no st0 (dfs_cfc g f) Hno0 Hpath0 [v] st)
    as (st2' & Hum' & Hl2); [|done|done|].
  { intros x ->%list_elem_of_singleton. done. }
  assert (st2' = st2) by congruence. subst st2'. clear Hum'.
  pose proof Hl as (Hinv & Hmol & Hino & M & HP & HM & a0 & y0 & Ha0 & _).
  pose proof Hinv as (Ht1 & Ht2 & Ht3 & Ht4 & Ht5 & Ht6).
  destruct Hlc as (Hic & Hbaixas).
  destruct (Hbaixas M HP) as (Hdesc & Hlow).
  assert (HP0 : ∀ y, y ∈ pilha st0 → y ∈ pilha st).
  { intros y Hy. rewrite HP. apply elem_of_app. right. by right. }
  assert (Hreach : ∀ x, x ∈ pilha st → alcanca g x no).
  { intros x. rewrite HP. intros [Hx|[->|Hx]%elem_of_cons]%elem_of_app.
    - by apply HM.
    - done.
    - by apply Hpath0. }
  assert (Hstep : laco_completo g no st0 st2
    ∧ (∀ x i, indices st !! x = Some i → indices st2 !! x = Some i)
    ∧ (∀ l l', lowlinks st !! no = Some l → lowlinks st2 !! no = Some l' → l' ≤ l)
    ∧ (descoberto st2 v
       ∧ ∀ l i, lowlinks st2 !! no = Some l → v ∈ pilha st0 →
           indices st2 !! v = Some i → l ≤ i)).
  { apply vizinhos_um_inv in Hum
      as [(Hnew & st1 & a & b & Hrec & Ha & Hb & ->)
         |[(Hold & Hnp & a & b & Ha & Hb & ->)|(Hold & Hnp & ->)]].
    - (* an undiscovered successor *)
      assert (Hpre : ∀ x, x ∈ pilha st → alcanca g x v).
      { intros x Hx. eapply rtc_r; [by apply Hreach|done]. }
      assert (HvU : v ∈ universo g) by (by eapply universo_aresta).
      destruct (dfs_cfc g f v st Hinv Hnew Hpre HvU Hf) as (st1' & Hrec' & Hpos).
      assert (st1' = st1) by congruence. subst st1'. clear Hrec'.
      pose proof (IHf v st st1 Hinv Hic Hnew Hpre HvU Hf Hrec) as (Hic1 & Hb1).
      destruct Hpos as (Hinv1 & (HI1 & HL1 & Hn1 & Hc1) & Hiv & N & HP1 & HN & _).
      destruct (Hb1 N HP1) as (Hdesc1 & Hlow1).
      assert (Ha' : a = a0).
      { rewrite HL1 in Ha by (by eexists). congruence. }
      subst a0. split_and!.
      + split; [done|]. intros M2 HM2. simpl in HM2.
        rewrite HP1, HP, (assoc_L (++)) in HM2.
        apply app_inv_tail in HM2 as <-. split.
        * intros x y [Hx|Hx]%elem_of_app Hxy.
          -- by eapply Hdesc1.
          -- destruct (Hdesc x y Hx Hxy) as [i Hi]. exists i. by apply HI1.
        * intros l x y i Hl' Hx Hy Hxy Hi. simpl in Hl', Hi.
          rewrite lookup_insert_eq in Hl'. injection Hl' as <-.
          apply elem_of_app in Hx as [Hx|Hx].
          -- pose proof (Hlow1 b x y i Hb Hx (HP0 y Hy) Hxy Hi). lia.
          -- destruct (Ht3 y (HP0 y Hy)) as [i' Hi'].
             assert (i' = i) by (apply HI1 in Hi'; congruence). subst i'.
             pose proof (Hlow a x y i Ha0 Hx Hy Hxy Hi'). lia.
      + simpl. done.
      + simpl. intros l l' Hl' Hl''. rewrite lookup_insert_eq in Hl''.
        injection Hl'' as <-. assert (l = a) by congruence. lia.
      + unfold descoberto. simpl. by rewrite Hiv.
      + intros l i _ Hy _.
        destruct (Ht3 v (HP0 v Hy)) as [? ?]. congruence.
    - (* a successor on the stack *)
      assert (Ha' : a = a0) by congruence. subst a0. split_and!.
      + split; [done|]. intros M2 HM2. simpl in HM2. rewrite HP in HM2.
        apply app_inv_tail in HM2 as <-. split; [done|].
        intros l x y i Hl' Hx Hy Hxy Hi. simpl in Hl', Hi.
        rewrite lookup_insert_eq in Hl'. injection Hl' as <-.
        pose proof (Hlow a x y i Ha Hx Hy Hxy Hi). lia.
      + done.
      + simpl. intros l l' Hl' Hl''. rewrite lookup_insert_eq in Hl''.
        injection Hl'' as <-. assert (l = a) by congruence. lia.
      + done.
      + simpl. intros l i Hl' _ Hi.
        rewrite lookup_insert_eq in Hl'. injection Hl' as <-.
        assert (i = b) by congruence. lia.
    - (* a successor that has left the stack *)
      split_and!; [done|done| |done|].
      + intros l l' H1 H2. assert (l = l') by congruence. lia.
      + intros l i _ Hy _. exfalso. apply Hnp, Ht1. by apply HP0. }
  destruct Hstep as (Hlc2 & Hinc2 & Hmono2 & Hdv & Hlv).
  destruct (IH st2 st' Hvs' Hl2 Hlc2) as (Hl' & Hlc' & Hinc' & Hmono' & Hproc'); [|done|].
  { etrans; [|exact Hf]. apply restante_mono.
    intros x [i Hi]%elem_of_dom. apply elem_of_dom. exists i. by apply Hinc2. }
  destruct Hl2 as (_ & _ & _ & _ & _ & _ & l2 & y2 & Hl2 & _).
  split_and!; [done|done| | |].
  - intros x i Hi. by apply Hinc', Hinc2.
  - intros l l' H1 H2. pose proof (Hmono2 l l2 H1 Hl2).
    pose proof (Hmono' l2 l' Hl2 H2). lia.
  - intros x [->|Hx]%elem_of_cons; [|by apply Hproc'].
    destruct Hdv as [i Hi]. split; [exists i; by apply Hinc'|].
    intros l i' Hl'' Hy Hi'. apply Hinc' in Hi as Hi''.
    assert (i' = i) by congruence. subst i'.
    pose proof (Hlv l2 i Hl2 Hy Hi). pose proof (Hmono' l2 l Hl2 Hl''). lia.
Qed.

(** The state after the component rooted at [no] has been popped. *)
Lemma retirada_completa no st st2 M C :
  inv_cfc g st → indices st !! no = None →
  laco_cfc g no st st2 → laco_completo g no st st2 →
  pilha st2 = M ++ no :: pilha st →
  lowlinks st2 !! no = Some (index st) →
  (∀ v, aresta g no v →
     descoberto st2 v
     ∧ ∀ l i, lowlinks st2 !! no = Some l → v ∈ pilha st →
         indices st2 !! v = Some i → l ≤ i) →
  (C = cfc st2 ++ [M ++ [no]] ∧ 1 < length (M ++ [no])
   ∨ C = cfc st2 ∧ ¬ 1 < length (M ++ [no])) →
  pos_completo g no st
    (Estado (index st2) (indices st2) (lowlinks st2) (pilha st)
            (na_pilha st2 ∖ list_to_set (M ++ [no])) C).
Proof.
  intros Hinv Hno Hl Hlc HP Hroot Hproc HC.
  pose proof Hinv as (Ht1 & Ht2 & Ht3 & Ht4 & Ht5 & Ht6).
  destruct Hl as (Hinv2 & (HI2 & HL2 & Hn2 & Hc2) & Hino & M' & HP' & HM & _).
  assert (M' = M) as ->.
  { rewrite HP in HP'. by apply app_inv_tail in HP'. }
  pose proof Hinv2 as (Hu1 & Hu2 & Hu3 & Hu4 & Hu5 & Hu6).
  destruct Hlc as ((Hc1 & Hcw & Hc3 & Hc4) & Hbaixas).
  destruct (Hbaixas M HP) as (Hdesc & Hlow).
  set (comp := M ++ [no]) in *.
  set (st' := Estado _ _ _ _ _ C).
  rewrite HP in Hu2. apply NoDup_app in Hu2 as (HndM & HMS & HndS).
  apply NoDup_cons in HndS as [HnoS HndS].
  assert (Hcomp_pilha : ∀ x, x ∈ comp → x ∈ pilha st2 ∧ x ∉ pilha st).
  { intros x [Hx|Hx]%elem_of_app.
    - split; [rewrite HP; apply elem_of_app; by left|]. intros Hs.
      apply (HMS x Hx). by right.
    - apply list_elem_of_singleton in Hx as ->.
      split; [|done]. rewrite HP. apply elem_of_app. right. left. }
  assert (Hret : ∀ x, retirado st' x ↔ retirado st2 x ∨ x ∈ comp).
  { intros x. unfold retirado. simpl. split.
    - intros [Hd Hn]. destruct (decide (x ∈ pilha st2)) as [Hin|Hin]; [|by left].
      right. rewrite HP in Hin.
      apply elem_of_app in Hin as [?|[->|?]%elem_of_cons]; [| |done].
      + apply elem_of_app. by left.
      + apply elem_of_app. right. left.
    - intros [[Hd Hn]|Hx].
      + split; [done|]. intros Hs. apply Hn. rewrite HP.
        apply elem_of_app. right. by right.
      + destruct (Hcomp_pilha x Hx) as [Hin Hout]. split; [by apply Hu3|done]. }
  assert (Hbaixo : ∀ y i, y ∈ pilha st → indices st2 !! y = Some i → i < index st).
  { intros y i Hy Hi. destruct (Ht3 y Hy) as [j Hj].
    apply Ht4 in Hj as Hlt. apply HI2 in Hj. assert (i = j) by congruence. lia. }
  assert (Hsuc : ∀ x y, x ∈ comp → aresta g x y → retirado st' y).
  { intros x y Hx Hxy.
    assert (Hy : descoberto st2 y
      ∧ ∀ i, y ∈ pilha st → indices st2 !! y = Some i → index st ≤ i).
    { apply elem_of_app in Hx as [Hx|Hx].
      - split; [by eapply Hdesc|]. intros i Hy Hi. by eapply (Hlow _ x y i).
      - apply list_elem_of_singleton in Hx as ->.
        destruct (Hproc y Hxy) as [Hd Hlo]. split; [done|].
        intros i Hy Hi. by eapply Hlo. }
    destruct Hy as [[i Hi] Hlo]. split; simpl; [by eexists|].
    intros Hy. pose proof (Hlo i Hy Hi). pose proof (Hbaixo y i Hy Hi). lia. }
  assert (Hfecho : ∀ x y, retirado st' x → aresta g x y → retirado st' y).
  { intros x y [Hx|Hx]%Hret Hxy.
    - apply Hret. left. by eapply Hc1.
    - by eapply Hsuc. }
  assert (Hmax : cfc_maximal g comp).
  { assert (Hto : ∀ u, u ∈ comp → alcanca g u no ∧ alcanca g no u).
    { intros u [Hu|Hu]%elem_of_app.
      - destruct (HM u Hu) as (? & ? & _). done.
      - apply list_elem_of_singleton in Hu as ->. done. }
    split.
    - intros u v Hu Hv. etrans; [by apply Hto|by apply Hto].
    - intros u v Hu Huv Hvu.
      assert (Hv : retirado st' v).
      { eapply retirado_alcanca; [exact Hfecho| |exact Huv]. apply Hret. by right. }
      apply Hret in Hv as [Hv|Hv]; [|done]. exfalso.
      assert (Hu2 : retirado st2 u) by (by eapply retirado_alcanca).
      destruct Hu2 as [_ Hu2]. apply Hu2. by apply Hcomp_pilha. }
  assert (HCin : ∀ c, c ∈ C ↔ c ∈ cfc st2 ∨ (c = comp ∧ 1 < length comp)).
  { intros c. destruct HC as [[-> Hlen]|[-> Hlen]].
    - rewrite elem_of_app, list_elem_of_singleton. naive_solver.
    - naive_solver. }
  split.
  - split_and!.
    + done.
    + intros x [Hx|Hx]%Hret.
      * destruct (Hcw x Hx) as (c & Hxc & Hcm & Hcin). exists c.
        split_and!; [done|done|]. intros Hlen. apply HCin. left. by apply Hcin.
      * exists comp. split_and!; [done|done|]. intros Hlen. apply HCin. by right.
    + intros c [Hc|[-> _]]%HCin.
      * destruct (Hc3 c Hc) as [Hcm Hmem]. split; [done|].
        intros x Hx. apply Hret. left. by apply Hmem.
      * split; [done|]. intros x Hx. apply Hret. by right.
    + simpl. destruct HC as [[-> Hlen]|[-> Hlen]]; [|done].
      rewrite join_app. simpl. rewrite app_nil_r.
      apply NoDup_app. split_and!; [done| |].
      * intros x (c & Hxc & Hc)%list_elem_of_join Hx.
        destruct (Hc3 c Hc) as [_ Hmem]. destruct (Hmem x Hxc) as [_ Hn].
        apply Hn. by apply Hcomp_pilha.
      * apply NoDup_app. split_and!; [done| |apply NoDup_singleton].
        intros x Hx ->%list_elem_of_singleton. apply (HMS no Hx). left.
  - intros N HN. simpl in HN.
    change (pilha st) with ([] ++ pilha st) in HN at 1.
    apply app_inv_tail in HN as <-. split.
    + intros x y Hx. by apply elem_of_nil in Hx.
    + intros l x y i _ Hx. by apply elem_of_nil in Hx.
Qed.

Lemma dfs_completo fuel no st st' :
  inv_cfc g st → inv_completo g st → indices st !! no = None →
  (∀ x, x ∈ pilha st → alcanca g x no) → no ∈ universo g →
  restante (universo g) (dom (indices st)) ≤ fuel →
  dfs g fuel no st = Ok st' → pos_completo g no st st'.
Proof.
  revert no st st'. induction fuel as [|f IH]; intros no st st' Hinv Hic Hno Hpath HU Hf Hrun.
  { done. }
  cbn [dfs] in Hrun. fold (entrada no st) in Hrun.
  destruct (vizinhos (dfs g f) no (get g no []) (entrada no st)) as [st2| |] eqn:Hviz;
    cbn in Hrun; [|done|done].
  destruct (vizinhos_completo f no st IH Hinv Hno Hpath (get g no []) (entrada no st) st2)
    as (Hl & Hlc & _ & _ & Hproc); [done| | | |done|].
  { by apply laco_cfc_entrada. }
  { by apply laco_completo_entrada. }
  { assert (Hnd : no ∉ dom (indices st)) by (by apply not_elem_of_dom).
    pose proof (restante_novo (universo g) (dom (indices st)) no HU Hnd).
    simpl. rewrite dom_insert_L. lia. }
  pose proof Hl as (Hinv2 & Hmol2 & Hino & M & HP & HM & l & y & Hl1 & Hl2 & _).
  unfold ler in Hrun. rewrite Hl1, Hino in Hrun. cbn in Hrun.
  case_decide as Hroot.
  - (* the root of a component *)
    subst l. rewrite HP in Hrun.
    pose proof Hinv2 as (Hu1 & Hu2 & Hu3 & _).
    rewrite desempilhar_spec in Hrun; [|by rewrite <-HP|]; last first.
    { intros x Hx. apply Hu1. rewrite HP.
      apply elem_of_app in Hx as [?|Hx]; apply elem_of_app; [by left|].
      apply list_elem_of_singleton in Hx as ->. right. left. }
    cbn in Hrun. case_decide as Hlen; injection Hrun as <-.
    + eapply retirada_completa; eauto.
    + eapply retirada_completa; eauto.
  - (* [no] stays on the stack *)
    injection Hrun as <-. destruct Hlc as (Hic2 & Hbaixas).
    destruct (Hbaixas M HP) as (Hdesc & Hlow).
    split; [done|]. intros N HN. rewrite HP in HN.
    change (M ++ no :: pilha st) with (M ++ [no] ++ pilha st) in HN.
    rewrite (assoc_L (++)) in HN. apply app_inv_tail in HN as <-. split.
    + intros x z [Hx|Hx]%elem_of_app Hxz; [by eapply Hdesc|].
      apply list_elem_of_singleton in Hx as ->. by apply Hproc.
    + intros l' x z i Hl' [Hx|Hx]%elem_of_app Hz Hxz Hi; [by eapply Hlow|].
      apply list_elem_of_singleton in Hx as ->.
      destruct (Hproc z Hxz) as [_ Hlo]. by eapply Hlo.
Qed.

Lemma principal_completo fuel ks st st' :
  size (universo g) ≤ fuel →
  (∀ k, k ∈ ks → k ∈ chaves g) →
  inv_cfc g st → inv_completo g st → pilha st = [] →
  principal g fuel ks st = Ok st' →
  inv_cfc g st' ∧ inv_completo g st' ∧ pilha st' = []
  ∧ (∀ x, descoberto st x ∨ x ∈ ks → descoberto st' x).
Proof.
  intros Hf. revert st. induction ks as [|k ks IH]; intros st Hks Hinv Hic HP Hrun.
  { injection Hrun as <-. split_and!; [done|done|done|].
    intros x [?|Hx]; [done|]. by apply elem_of_nil in Hx. }
  assert (Hks' : ∀ k', k' ∈ ks → k' ∈ chaves g) by (intros; apply Hks; by right).
  cbn [principal] in Hrun. case_decide as Hnew.
  - assert (Hpath : ∀ x, x ∈ pilha st → alcanca g x k).
    { intros x. rewrite HP. intros Hx. by apply elem_of_nil in Hx. }
    assert (HkU : k ∈ universo g) by (apply universo_chave, Hks; left).
    assert (Hrest : restante (universo g) (dom (indices st)) ≤ fuel).
    { etrans; [apply restante_le|done]. }
    destruct (dfs_cfc g fuel k st Hinv Hnew Hpath HkU Hrest) as (st1 & Hdfs & Hpos).
    rewrite Hdfs in Hrun. cbn in Hrun.
    pose proof (dfs_completo fuel k st st1 Hinv Hic Hnew Hpath HkU Hrest Hdfs)
      as (Hic1 & _).
    destruct Hpos as (Hinv1 & (HI1 & _) & Hik & N & HP1 & HN & Hcase).
    assert (HP1' : pilha st1 = []).
    { rewrite HP1, HP. destruct Hcase as [[-> _]|[(l & y & _ & _ & Hy & _) _]]; [done|].
      rewrite HP in Hy. by apply elem_of_nil in Hy. }
    destruct (IH st1 Hks' Hinv1 Hic1 HP1' Hrun) as (? & ? & ? & Hd).
    split_and!; [done|done|done|].
    intros x [[i Hi]|[->|Hx]%elem_of_cons]; apply Hd; auto.
    + left. exists i. by apply HI1.
    + left. by eexists.
  - destruct (IH st Hks' Hinv Hic HP Hrun) as (? & ? & ? & Hd).
    split_and!; [done|done|done|].
    intros x [?|[->|Hx]%elem_of_cons]; apply Hd; auto.
    left. by apply not_eq_None_Some.
Qed.

(** The components returned are whole strongly connected components, no
    name is in two of them, and every name that lies on a cycle through
    another name is in one. *)
Lemma encontrar_cfc_com_completo fuel :
  size (universo g) ≤ fuel →
  ∃ cs, encontrar_cfc_com fuel g = Ok cs
    ∧ (∀ comp, comp ∈ cs → componente_ok g comp ∧ cfc_maximal g comp)
    ∧ NoDup (mjoin cs)
    ∧ (∀ u v, u ≠ v → alcanca g u v → alcanca g v u →
         ∃ comp, comp ∈ cs ∧ u ∈ comp ∧ v ∈ comp).
Proof.
  intros Hf.
  destruct (encontrar_cfc_com_spec g fuel Hf) as (cs & Hcs & Hok).
  unfold encontrar_cfc_com in Hcs.
  destruct (principal g fuel (chaves g) inicial) as [st| |] eqn:Hrun;
    cbn in Hcs; [|done|done].
  injection Hcs as <-.
  destruct (principal_completo fuel (chaves g) inicial st)
    as (Hinv & (Hc1 & Hcw & Hc3 & Hc4) & HP & Hd); [done|done| | |done|done|].
  { split_and!; simpl.
    - intros x. rewrite elem_of_nil. set_solver.
    - apply NoDup_nil_2.
    - intros x Hx. by apply elem_of_nil in Hx.
    - intros x i. by rewrite lookup_empty.
    - intros x [i Hi]. by rewrite lookup_empty in Hi.
    - intros comp Hc. by apply elem_of_nil in Hc. }
  { split_and!; unfold retirado; simpl.
    - intros x y [[i Hi] _]. by rewrite lookup_empty in Hi.
    - intros x [[i Hi] _]. by rewrite lookup_empty in Hi.
    - intros comp Hc. by apply elem_of_nil in Hc.
    - apply NoDup_nil_2. }
  exists (cfc st). unfold encontrar_cfc_com. rewrite Hrun. cbn.
  split_and!; [done| |done|].
  - intros comp Hc. split; [by apply Hok|by apply Hc3].
  - intros u v Hne Huv Hvu.
    assert (Hu : retirado st u).
    { split; [|rewrite HP; apply not_elem_of_nil]. apply Hd. right.
      apply rtc_tc in Huv as [?|Huv]; [done|]. by eapply caminho_chave. }
    destruct (Hcw u Hu) as (comp & Hucomp & Hmax & Hin).
    assert (Hv : v ∈ comp) by (by eapply Hmax).
    exists comp. split_and!; [|done|done].
    apply Hin. exact (dois_membros comp u v Hucomp Hv Hne).
Qed.
End tarjan_completo.

(** ** Transitive order on an acyclic graph *)

Lemma ord_caminho g O a b :
  ¬ ciclico g → ord g O → caminho g a b →
  ∀ l1 l2, O = l1 ++ a :: l2 → b ∈ l1.
Proof.
  intros Hac Hord Hp. induction Hp as [a b Hab|a y b Hay Hyb IH]; intros l1 l2 HO.
  - destruct (Hord l1 a l2 b HO Hab) as [?|Hba]; [done|].
    exfalso. apply Hac. exists a. eapply tc_rtc_r; [by apply tc_once|done].
  - destruct (Hord l1 a l2 y HO Hay) as [Hy|Hya].
    + apply list_elem_of_split in Hy as (p1 & p2 & ->).
      apply elem_of_app. left. apply (IH p1 (p2 ++ a :: l2)).
      by rewrite HO, <-(assoc_L (++)).
    + exfalso. apply Hac. exists a. eapply tc_rtc_r; [by apply tc_once|done].
Qed.

Lemma antes_reverse a b (O : list string) l1 l2 :
  O = l1 ++ a :: l2 → b ∈ l1 → antes a b (reverse O).
Proof.
  intros -> (p1 & p2 & ->)%list_elem_of_split.
  exists (reverse l2), (reverse p2), (reverse p1).
  repeat (rewrite reverse_app || rewrite reverse_cons).
  by rewrite <-!(assoc_L (++)).
Qed.

(** ** The critical packages, read off the graph *)

Lemma criticos_exatos g :
  ∃ criticos maximo (tabela : PacotesCriticos.Tabela),
    PacotesCriticos.encontrar_pacotes_criticos g = Ok (criticos, maximo, tabela)
    ∧ (∀ x, x ∈ criticos ↔ conhecido g x ∧ grau_entrada g x = maximo)
    ∧ (∀ y, grau_entrada g y ≤ maximo)
    ∧ NoDup criticos
    ∧ criticos `sublist_of` tabela.*1.
Proof.
  destruct (tabela_exata g) as (c & m & t & Hr & Hok & Hk & Hget & -> & Hmax & _).
  exists ((filter (λ pg, pg.2 = m) t).*1), m, t.
  assert (Hsub : (filter (λ pg : string * nat, pg.2 = m) t).*1 `sublist_of` t.*1).
  { apply fmap_sublist, sublist_filter. }
  assert (Hpar : ∀ x v, (x, v) ∈ t ↔ x ∈ t.*1 ∧ get t x 0 = v).
  { intros x v. rewrite (dict_ok_procurar t x v Hok). unfold get. split.
    - intros Hp. rewrite Hp. split; [|done]. apply chaves_procurar. by eexists.
    - intros [[w Hw]%chaves_procurar Hv]. rewrite Hw in Hv |- *. simpl in Hv. by subst. }
  split_and!; [done| | |by eapply sublist_NoDup|done].
  - intros x. rewrite <-Hk, <-Hget, <-Hpar. rewrite list_elem_of_fmap. split.
    + intros ([k v] & -> & [Hv ?]%list_elem_of_filter). simpl in *. by subst v.
    + intros Hx. exists (x, m). split; [done|]. by apply list_elem_of_filter.
  - intros y. rewrite <-Hget. destruct (decide (y ∈ t.*1)) as [Hy|Hy].
    + apply (Hmax y). by apply Hpar.
    + unfold get. apply procurar_None in Hy. rewrite Hy. simpl. lia.
Qed.

(** ** Whether a query is empty *)

Lemma caminho_vazio g n : (∀ m, ¬ caminho g n m) ↔ get g n [] = [].
Proof.
  split.
  - intros Hn. destruct (get g n []) as [|v vs] eqn:E; [done|].
    exfalso. apply (Hn v). apply tc_once. unfold aresta. rewrite E. left.
  - intros E m Hp. apply tc_primeiro in Hp as (y & Hy & _).
    unfold aresta in Hy. rewrite E in Hy. by apply elem_of_nil in Hy.
Qed.

Lemma caminho_ultimo g m n : caminho g m n → ∃ k, aresta g k n.
Proof.
  intros H. induction H as [x y Hxy|x y z Hxy Hyz IH]; [by exists x|done].
Qed.

(** ** The run of [main] *)

Section principal.
Import Principal.

Lemma imprime_inv s e x :
  x ∈ (imprime s e).1 ↔ x = s ∨ x ∈ e.1.
Proof. unfold imprime. simpl. apply elem_of_cons. Qed.

Lemma laco_justificada g c n :
  (c = true ↔ ciclico g) →
  ∀ entradas, length entradas ≤ n →
    ∀ s, s ∈ (laco g c entradas).1 → justificada g s.
Proof.
  intros Hc. pose proof (universo_size g) as HU.
  induction n as [|n IH]; intros entradas Hlen.
  { destruct entradas; [|simpl in Hlen; lia]. simpl.
    intros s ->%list_elem_of_singleton. done. }
  destruct entradas as [|escolha resto].
  { simpl. intros s ->%list_elem_of_singleton. done. }
  simpl in Hlen.
  assert (Hresto : ∀ s, s ∈ (laco g c resto).1 → justificada g s)
    by (apply IH; lia).
  assert (Hmais : ∀ e s0, (∀ s, s ∈ e.1 → justificada g s) →
    justificada g s0 →
    ∀ s, s ∈ (imprime (Menu c) (imprime s0 e)).1 → justificada g s).
  { intros e s0 He2 Hs0.
    intros s [->|[->|Hs]%imprime_inv]%imprime_inv; [done|done|by apply He2]. }
  cbn [laco]. repeat case_decide.
  - (* 1 *)
    destruct c.
    + destruct (encontrar_cfc_com_completo g (combustivel g)) as (cs & Hcs & Hok & Hnd & Hcomp);
        [lia|].
      unfold EncontrarCfc.encontrar_cfc. rewrite Hcs. cbn [apos].
      apply Hmais; [done|]. assert (Hcic : ciclico g) by (by apply Hc).
      case_decide as Hnil; simpl.
      * split; [done|]. intros u v Huv Hvu.
        destruct (decide (u = v)) as [|Hne]; [done|]. exfalso.
        destruct (Hcomp u v Hne) as (comp & Hin & _); [by apply tc_rtc..|].
        subst cs. by apply elem_of_nil in Hin.
      * done.
    + destruct (finalizacao_spec g (combustivel g)) as (O & HO & Hnd & Hord & Hmem); [lia|].
      unfold OrdemInstalacao.ordem_instalacao, OrdemInstalacao.ordem_instalacao_com.
      rewrite HO. cbn [mbind res_bind apos].
      apply Hmais; [done|]. simpl.
      assert (Hac : ¬ ciclico g) by (intros ?%Hc; done).
      split_and!; [done|by rewrite reverse_Permutation| |].
      * intros x. rewrite elem_of_reverse. apply Hmem.
      * intros a b Hab.
        assert (Ha : a ∈ O) by (apply Hmem; left; by eapply caminho_chave).
        apply list_elem_of_split in Ha as (l1 & l2 & HOeq).
        eapply antes_reverse; [done|]. by eapply ord_caminho.
  - (* 2 *)
    destruct (criticos_exatos g) as (cr & m & t & -> & Hmem & Hmax & _).
    cbn [apos]. apply Hmais; [done|]. simpl. done.
  - (* 3 *)
    destruct resto as [|pacote resto'].
    { simpl. intros s ->%list_elem_of_singleton. done. }
    assert (Hresto' : ∀ s, s ∈ (laco g c resto').1 → justificada g s)
      by (apply IH; simpl in Hlen; lia).
    case_decide as Hp.
    + by apply Hmais.
    + destruct (consultar_dependencias_com_spec g (universo g)
                  (universo_aresta g) (combustivel g) pacote) as (s & Hs & Hmem); [done|].
      unfold ConsultarDependencias.consultar_dependencias. rewrite Hs. cbn [apos].
      apply Hmais; [done|]. case_decide as He; simpl.
      * exists pacote. split; [done|]. apply caminho_vazio. intros m Hm.
        apply Hmem in Hm. subst s. set_solver.
      * split; [done|]. by exists pacote.
  - (* 4 *)
    destruct resto as [|pacote resto'].
    { simpl. intros s ->%list_elem_of_singleton. done. }
    assert (Hresto' : ∀ s, s ∈ (laco g c resto').1 → justificada g s)
      by (apply IH; simpl in Hlen; lia).
    case_decide as Hp.
    + by apply Hmais.
    + destruct (simular_remocao_com_spec g (combustivel g) pacote)
        as (s & inv & Hs & _ & _ & Hmem & _); [done|].
      unfold SimularRemocao.simular_remocao. rewrite Hs. cbn [apos].
      apply Hmais; [done|]. case_decide as He; simpl.
      * exists pacote. split; [done|]. intros k Hk.
        assert (k ∈ s) by (apply Hmem; by apply tc_once). subst s. set_solver.
      * split; [done|]. by exists pacote.
  - (* 0 *)
    intros s [->|Hs]%imprime_inv; [done|].
    simpl in Hs. by apply list_elem_of_singleton in Hs as ->.
  - (* any other answer *)
    by apply Hmais.
Qed.

Lemma main_justificada arquivos entradas :
  ∀ s, s ∈ (main arquivos entradas).1 →
    s = ArquivoNaoEncontrado
    ∨ ∃ resposta linhas g,
        head entradas = Some resposta
        ∧ arquivos (if decide (resposta = "") then "entrada.txt" else resposta)
          = Some linhas
        ∧ CarregarArquivo.carregar_arquivo linhas = Ok g
        ∧ dict_ok g ∧ invariante g
        ∧ justificada g s.
Proof.
  unfold main. destruct entradas as [|resposta resto].
  { intros s Hs. by apply elem_of_nil in Hs. }
  destruct (arquivos _) as [linhas|] eqn:Harq.
  - destruct (carregar_arquivo_spec linhas) as (g & Hg & Hd & Hi & _).
    rewrite Hg. cbn [apos].
    destruct (tem_ciclo_com_spec g (combustivel g)) as (c & Hc & Hiff).
    { pose proof (universo_size g). lia. }
    unfold TemCiclo.tem_ciclo. rewrite Hc. cbn [apos].
    pose proof (laco_justificada g c (length resto) Hiff resto (le_n _)) as Hjust.
    intros s Hs. right. exists resposta, linhas, g.
    split_and!; [done|done|done|done|done|].
    apply imprime_inv in Hs as [->|Hs]; [done|by apply Hjust].
  - intros s ->%list_elem_of_singleton. by left.
Qed.
End principal.

(** * Further properties, stated *)

Lemma conhecido_invariante g x : invariante g → conhecido g x ↔ x ∈ chaves g.
Proof.
  intros Hi. split; [|by left].
  intros [?|[k Hk]]; [done|]. by eapply Hi, aresta_destino.
Qed.

(** X1.  Whatever the lines of the file, [carregar_arquivo] returns a
    graph in which no key is repeated and every destination of an edge is
    a key. *)
Theorem carregar_arquivo_invariante (arquivo : list string) :
  ∃ g, CarregarArquivo.carregar_arquivo arquivo = Ok g ∧ dict_ok g ∧ invariante g.
Proof.
  destruct (carregar_arquivo_spec arquivo) as (g & Hg & Hd & Hi & _).
  by exists g.
Qed.

(** X2.  The neighbour list of a name in the graph loaded is the
    concatenation, in the order of the file, of the words after the first
    of every line whose first word is that name; repeated edges stay. *)
Theorem carregar_arquivo_dependencias (arquivo : list string) (u : string) :
  ∃ g, CarregarArquivo.carregar_arquivo arquivo = Ok g
       ∧ get g u [] = declaradas arquivo u.
Proof.
  destruct (carregar_arquivo_spec arquivo) as (g & Hg & _ & _ & Hget & _).
  by exists g.
Qed.

(** X3.  The keys of the graph loaded are the words of the lines that
    have two words at least: a line that holds a package name alone (or
    nothing) registers no node. *)
Theorem carregar_arquivo_registra (arquivo : list string) :
  ∃ g, CarregarArquivo.carregar_arquivo arquivo = Ok g
       ∧ (∀ k, k ∈ chaves g
               ↔ ∃ l, l ∈ arquivo ∧ 2 ≤ length (palavras l) ∧ k ∈ palavras l)
       ∧ ((∀ l, l ∈ arquivo → length (palavras l) < 2) → g = []).
Proof.
  destruct (carregar_arquivo_spec arquivo) as (g & Hg & _ & _ & _ & Hk).
  exists g. split_and!; [done|done|].
  intros Hum. destruct g as [|[k vs] g]; [done|]. exfalso.
  destruct (proj1 (Hk k)) as (l & Hl & Hlen & _); [left|].
  pose proof (Hum l Hl). lia.
Qed.

(** X4.  The table of [encontrar_pacotes_criticos] has one entry for each
    name that is a key or a destination, and no other; the entry of a name
    is the number of edges that end at it. *)
Theorem tabela_de_graus_exata (g : Grafo) :
  ∃ criticos maximo (tabela : PacotesCriticos.Tabela),
    PacotesCriticos.encontrar_pacotes_criticos g = Ok (criticos, maximo, tabela)
    ∧ dict_ok tabela
    ∧ (∀ x, x ∈ tabela.*1 ↔ conhecido g x)
    ∧ (∀ x, get tabela x 0 = grau_entrada g x).
Proof.
  destruct (tabela_exata g) as (c & m & t & Hr & Hok & Hk & Hget & _).
  by exists c, m, t.
Qed.

(** X5.  The packages returned as critical are the names of the graph
    whose in-degree is the integer returned, no name has a larger
    in-degree, and the list has no repetition and follows the order of the
    table. *)
Theorem criticos_de_maior_grau (g : Grafo) :
  ∃ criticos maximo (tabela : PacotesCriticos.Tabela),
    PacotesCriticos.encontrar_pacotes_criticos g = Ok (criticos, maximo, tabela)
    ∧ (∀ x, x ∈ criticos ↔ conhecido g x ∧ grau_entrada g x = maximo)
    ∧ (∀ y, grau_entrada g y ≤ maximo)
    ∧ NoDup criticos
    ∧ criticos `sublist_of` tabela.*1.
Proof. apply criticos_exatos. Qed.

(** X6.  On every graph, with or without the invariant, the list of
    [ordem_instalacao] holds the keys and the destinations of the edges,
    each once, and nothing else. *)
Theorem ordem_instalacao_nomes (g : Grafo) :
  ∃ o, OrdemInstalacao.ordem_instalacao g = Ok o
       ∧ NoDup o ∧ ∀ x, x ∈ o ↔ conhecido g x.
Proof.
  destruct (finalizacao_spec g (combustivel g)) as (O & HO & Hnd & _ & Hmem).
  { pose proof (universo_size g). lia. }
  exists (reverse O). unfold OrdemInstalacao.ordem_instalacao,
    OrdemInstalacao.ordem_instalacao_com. rewrite HO. cbn.
  split_and!; [done|by rewrite reverse_Permutation|].
  intros x. rewrite elem_of_reverse. apply Hmem.
Qed.

(** X7.  When [tem_ciclo] returns [False], every package stands in the
    list of [ordem_instalacao] before each package it depends on, directly
    or through others. *)
Theorem ordem_instalacao_transitiva (g : Grafo) (a b : string) :
  TemCiclo.tem_ciclo g = Ok false → caminho g a b →
  ∃ o, OrdemInstalacao.ordem_instalacao g = Ok o ∧ antes a b o.
Proof.
  intros Hac%tem_ciclo_falso Hab.
  destruct (finalizacao_spec g (combustivel g)) as (O & HO & Hnd & Hord & Hmem).
  { pose proof (universo_size g). lia. }
  exists (reverse O). unfold OrdemInstalacao.ordem_instalacao,
    OrdemInstalacao.ordem_instalacao_com. rewrite HO. cbn. split; [done|].
  assert (Ha : a ∈ O) by (apply Hmem; left; by eapply caminho_chave).
  apply list_elem_of_split in Ha as (l1 & l2 & HOeq).
  eapply antes_reverse; [done|]. by eapply ord_caminho.
Qed.

Lemma ordem_instalacao_transitiva_witness :
  ∃ o, OrdemInstalacao.ordem_instalacao losango = Ok o ∧ antes "A" "D" o.
Proof.
  apply (ordem_instalacao_transitiva losango "A" "D").
  - vm_compute. reflexivity.
  - apply (tc_l _ _ "B"); [|apply tc_once];
      unfold aresta; apply (bool_decide_unpack _); vm_compute; exact I.
Defined.

(** X8.  A component returned by [encontrar_cfc] is a whole strongly
    connected component: it holds every name that a member reaches and
    that reaches that member. *)
Theorem cfc_componentes_inteiros (g : Grafo) :
  ∃ cs, EncontrarCfc.encontrar_cfc g = Ok cs
    ∧ ∀ comp u v, comp ∈ cs → u ∈ comp →
        alcanca g u v → alcanca g v u → v ∈ comp.
Proof.
  destruct (encontrar_cfc_com_completo g (combustivel g)) as (cs & Hcs & Hok & _).
  { pose proof (universo_size g). lia. }
  exists cs. split; [done|]. intros comp u v Hc Hu Huv Hvu.
  destruct (Hok comp Hc) as [_ [_ Hmax]]. by eapply Hmax.
Qed.

(** X9.  No name is in two components returned by [encontrar_cfc], nor
    twice in one. *)
Theorem cfc_sem_repeticao (g : Grafo) :
  ∃ cs, EncontrarCfc.encontrar_cfc g = Ok cs ∧ NoDup (mjoin cs).
Proof.
  destruct (encontrar_cfc_com_completo g (combustivel g)) as (cs & Hcs & _ & Hnd & _).
  { pose proof (universo_size g). lia. }
  by exists cs.
Qed.

(** X10.  Two different names that lie on a common cycle are together in
    a component returned by [encontrar_cfc]. *)
Theorem cfc_completo (g : Grafo) :
  ∃ cs, EncontrarCfc.encontrar_cfc g = Ok cs
    ∧ ∀ u v, u ≠ v → caminho g u v → caminho g v u →
        ∃ comp, comp ∈ cs ∧ u ∈ comp ∧ v ∈ comp.
Proof.
  destruct (encontrar_cfc_com_completo g (combustivel g)) as (cs & Hcs & _ & _ & Hc).
  { pose proof (universo_size g). lia. }
  exists cs. split; [done|]. intros u v Hne Huv Hvu.
  apply Hc; [done|by apply tc_rtc..].
Qed.

(** X11.  [encontrar_cfc] returns the empty list exactly when every cycle
    of the graph is a self-loop; when the list is not empty, [tem_ciclo]
    returns [True]. *)
Theorem cfc_vazio_sse (g : Grafo) :
  ∃ cs b, EncontrarCfc.encontrar_cfc g = Ok cs ∧ TemCiclo.tem_ciclo g = Ok b
    ∧ (cs = [] ↔ ∀ u v, caminho g u v → caminho g v u → u = v)
    ∧ (cs ≠ [] → b = true).
Proof.
  pose proof (universo_size g) as HU.
  destruct (encontrar_cfc_com_completo g (combustivel g)) as (cs & Hcs & Hok & _ & Hc);
    [lia|].
  destruct (tem_ciclo_com_spec g (combustivel g)) as (b & Hb & Hiff); [lia|].
  assert (Hdois : cs ≠ [] → ∃ u v, u ≠ v ∧ caminho g u v ∧ caminho g v u).
  { intros Hne. destruct cs as [|comp cs]; [done|].
    destruct (Hok comp) as [(Hlen & Hnd & Hreach) _]; [left|].
    destruct comp as [|u [|v comp]]; simpl in Hlen; [lia|lia|].
    assert (u ≠ v).
    { apply NoDup_cons in Hnd as [Hu _]. intros ->. apply Hu. left. }
    exists u, v. split; [done|].
    assert (Huv : alcanca g u v) by (apply Hreach; [left|right; left]).
    assert (Hvu : alcanca g v u) by (apply Hreach; [right; left|left]).
    apply rtc_tc in Huv as [?|?]; [done|].
    apply rtc_tc in Hvu as [?|?]; [done|]. done. }
  exists cs, b. split_and!; [done|done| |].
  - split.
    + intros -> u v Huv Hvu. destruct (decide (u = v)) as [|Hne]; [done|]. exfalso.
      destruct (Hc u v Hne) as (comp & Hin & _); [by apply tc_rtc..|].
      by apply elem_of_nil in Hin.
    + intros Hself. destruct (decide (cs = [])) as [|Hne]; [done|]. exfalso.
      destruct (Hdois Hne) as (u & v & Huv & H1 & H2). by apply Huv, Hself.
  - intros Hne. destruct (Hdois Hne) as (u & v & _ & H1 & H2).
    apply Hiff. exists u. by eapply tc_trans.
Qed.

(** X12.  [simular_remocao] and [consultar_dependencias] are converse:
    [m] is affected by the removal of [n] exactly when [n] is among the
    dependencies of [m]. *)
Theorem remocao_dual_de_dependencias (g : Grafo) (n m : string) :
  ∃ s t, SimularRemocao.simular_remocao g n = Ok s
    ∧ ConsultarDependencias.consultar_dependencias g m = Ok t
    ∧ (m ∈ s ↔ n ∈ t).
Proof.
  destruct (simular_remocao_com_spec g (combustivel g) n)
    as (s & inv & Hs & _ & _ & Hmem & _); [apply universo_size|].
  destruct (consultar_dependencias_com_spec g (universo g)
              (universo_aresta g) (combustivel g) m) as (t & Ht & Hmem').
  { apply universo_size. }
  exists s, t. split_and!; [done|done|]. by rewrite Hmem, Hmem'.
Qed.

(** X13.  The dependencies of a dependency are dependencies: the set
    returned for a member of the set returned for [n] is a subset of
    it. *)
Theorem dependencias_transitivas (g : Grafo) (n : string) :
  ∃ s, ConsultarDependencias.consultar_dependencias g n = Ok s
    ∧ ∀ m, m ∈ s →
        ∃ t, ConsultarDependencias.consultar_dependencias g m = Ok t ∧ t ⊆ s.
Proof.
  destruct (consultar_dependencias_com_spec g (universo g)
              (universo_aresta g) (combustivel g) n) as (s & Hs & Hmem).
  { apply universo_size. }
  exists s. split; [done|]. intros m Hm.
  destruct (consultar_dependencias_com_spec g (universo g)
              (universo_aresta g) (combustivel g) m) as (t & Ht & Hmem').
  { apply universo_size. }
  exists t. split; [done|]. intros x Hx. apply Hmem.
  eapply tc_trans; [by apply Hmem|by apply Hmem'].
Qed.

(** X14.  [consultar_dependencias] returns the empty set exactly for a
    name without direct dependencies, and [simular_remocao] exactly for a
    name at which no edge ends. *)
Theorem consulta_vazia_sse (g : Grafo) (n : string) :
  (ConsultarDependencias.consultar_dependencias g n = Ok ∅ ↔ get g n [] = [])
  ∧ (SimularRemocao.simular_remocao g n = Ok ∅ ↔ ∀ k, ¬ aresta g k n).
Proof.
  split.
  - destruct (consultar_dependencias_com_spec g (universo g)
                (universo_aresta g) (combustivel g) n) as (s & Hs & Hmem).
    { apply universo_size. }
    unfold ConsultarDependencias.consultar_dependencias. rewrite Hs.
    rewrite <-caminho_vazio. split.
    + intros [= ->] m Hm. apply Hmem in Hm. set_solver.
    + intros Hn. f_equal. apply set_eq. intros m. rewrite Hmem. set_solver.
  - destruct (simular_remocao_com_spec g (combustivel g) n)
      as (s & inv & Hs & _ & _ & Hmem & _); [apply universo_size|].
    unfold SimularRemocao.simular_remocao. rewrite Hs. split.
    + intros [= ->] k Hk. assert (k ∈ (∅ : gset string)); [|set_solver].
      apply Hmem. by apply tc_once.
    + intros Hn. f_equal. apply set_eq. intros m. rewrite Hmem. split; [|set_solver].
      intros [k Hk]%caminho_ultimo. by apply Hn in Hk.
Qed.

(** X15.  The queries return names of the graph only: a dependency is a
    destination of an edge, and a package affected by a removal is a
    key. *)
Theorem consultas_dentro_do_grafo (g : Grafo) (n : string) :
  ∃ s t, ConsultarDependencias.consultar_dependencias g n = Ok s
    ∧ SimularRemocao.simular_remocao g n = Ok t
    ∧ (∀ m, m ∈ s → m ∈ destinos g)
    ∧ (∀ m, m ∈ t → m ∈ chaves g).
Proof.
  destruct (consultar_dependencias_com_spec g (universo g)
              (universo_aresta g) (combustivel g) n) as (s & Hs & Hmem).
  { apply universo_size. }
  destruct (simular_remocao_com_spec g (combustivel g) n)
    as (t & inv & Ht & _ & _ & Hmem' & _); [apply universo_size|].
  exists s, t. split_and!; [done|done| |].
  - intros m Hm%Hmem. by eapply caminho_destino.
  - intros m Hm%Hmem'. by eapply caminho_chave.
Qed.

(** X16.  [tem_ciclo] returns [True] exactly when some package is among
    its own dependencies as [consultar_dependencias] returns them. *)
Theorem tem_ciclo_sse_autodependencia (g : Grafo) :
  ∃ b, TemCiclo.tem_ciclo g = Ok b
    ∧ (b = true ↔
       ∃ n s, ConsultarDependencias.consultar_dependencias g n = Ok s ∧ n ∈ s).
Proof.
  pose proof (universo_size g) as HU.
  destruct (tem_ciclo_com_spec g (combustivel g)) as (b & Hb & Hiff); [lia|].
  exists b. split; [done|]. rewrite Hiff. split.
  - intros [n Hn].
    destruct (consultar_dependencias_com_spec g (universo g)
                (universo_aresta g) (combustivel g) n) as (s & Hs & Hmem); [done|].
    exists n, s. split; [done|]. by apply Hmem.
  - intros (n & s & Hs & Hn).
    destruct (consultar_dependencias_com_spec g (universo g)
                (universo_aresta g) (combustivel g) n) as (s' & Hs' & Hmem); [done|].
    unfold ConsultarDependencias.consultar_dependencias in Hs.
    rewrite Hs in Hs'. injection Hs' as <-. exists n. by apply Hmem.
Qed.

(** X17.  For every file, [ordem_instalacao] on the graph that
    [carregar_arquivo] returns gives a permutation of the keys of that
    graph: the loader establishes what the order needs. *)
Theorem ordem_instalacao_de_arquivo (arquivo : list string) :
  ∃ g o, CarregarArquivo.carregar_arquivo arquivo = Ok g
    ∧ OrdemInstalacao.ordem_instalacao g = Ok o
    ∧ o ≡ₚ chaves g.
Proof.
  destruct (carregar_arquivo_spec arquivo) as (g & Hg & Hd & Hi & _).
  destruct (finalizacao_spec g (combustivel g)) as (O & HO & Hnd & _ & Hmem).
  { pose proof (universo_size g). lia. }
  exists g, (reverse O). unfold OrdemInstalacao.ordem_instalacao,
    OrdemInstalacao.ordem_instalacao_com. rewrite HO. cbn.
  split_and!; [done|done|].
  rewrite reverse_Permutation. apply NoDup_Permutation; [done|done|].
  intros x. rewrite Hmem. by apply conhecido_invariante.
Qed.

(** X19.  When a run of [main] prints an installation order, the graph
    loaded has no cycle, the order is a permutation of its packages, and
    each package stands before every package it depends on, directly or
    through others. *)
Theorem main_ordem_impressa (arquivos : string → option (list string))
    (entradas : list string) (o : list string) :
  Principal.Ordem o ∈ (Principal.main arquivos entradas).1 →
  ∃ resposta linhas g,
    head entradas = Some resposta
    ∧ arquivos (if decide (resposta = "") then "entrada.txt" else resposta)
      = Some linhas
    ∧ CarregarArquivo.carregar_arquivo linhas = Ok g
    ∧ ¬ ciclico g
    ∧ o ≡ₚ chaves g
    ∧ ∀ a b, caminho g a b → antes a b o.
Proof.
  intros Hs. pose proof (main_justificada arquivos entradas) as Hj.
  destruct (Hj _ Hs) as [Hs'|(r & ls & g & Hr & Ha & Hg & Hd & Hi & Hac & Hnd & Hmem & Hord)];
    [done|].
  exists r, ls, g. split_and!; [done|done|done|done| |done].
  apply NoDup_Permutation; [done|done|].
  intros x. rewrite Hmem. by apply conhecido_invariante.
Qed.

Lemma main_ordem_impressa_witness :
  ∃ resposta linhas g,
    head [""; "1"; "0"] = Some resposta
    ∧ (λ _ : string, Some ["A B C"; "B D"; "C D"])
        (if decide (resposta = "") then "entrada.txt" else resposta)
      = Some linhas
    ∧ CarregarArquivo.carregar_arquivo linhas = Ok g
    ∧ ¬ ciclico g
    ∧ ["A"; "C"; "B"; "D"] ≡ₚ chaves g
    ∧ ∀ a b, caminho g a b → antes a b ["A"; "C"; "B"; "D"].
Proof.
  apply (main_ordem_impressa (λ _, Some ["A B C"; "B D"; "C D"])
           [""; "1"; "0"] ["A"; "C"; "B"; "D"]).
  vm_compute. do 2 apply list_elem_of_further. apply list_elem_of_here.
Defined.

(** X20.  When a run of [main] prints that there is no component with
    more than one node, the graph loaded does have a cycle, and each of
    its cycles is an edge from a package to itself. *)
Theorem main_sem_componentes (arquivos : string → option (list string))
    (entradas : list string) :
  Principal.SemComponentes ∈ (Principal.main arquivos entradas).1 →
  ∃ resposta linhas g,
    head entradas = Some resposta
    ∧ arquivos (if decide (resposta = "") then "entrada.txt" else resposta)
      = Some linhas
    ∧ CarregarArquivo.carregar_arquivo linhas = Ok g
    ∧ ciclico g
    ∧ ∀ u v, caminho g u v → caminho g v u → u = v.
Proof.
  intros Hs. pose proof (main_justificada arquivos entradas) as Hj.
  destruct (Hj _ Hs) as [Hs'|(r & ls & g & Hr & Ha & Hg & Hd & Hi & Hc & Hself)];
    [done|].
  by exists r, ls, g.
Qed.

Lemma main_sem_componentes_witness :
  ∃ resposta linhas g,
    head ["grafo.txt"; "1"; "0"] = Some resposta
    ∧ (λ _ : string, Some ["A A"; "A B"])
        (if decide (resposta = "") then "entrada.txt" else resposta)
      = Some linhas
    ∧ CarregarArquivo.carregar_arquivo linhas = Ok g
    ∧ ciclico g
    ∧ ∀ u v, caminho g u v → caminho g v u → u = v.
Proof.
  apply (main_sem_componentes (λ _, Some ["A A"; "A B"]) ["grafo.txt"; "1"; "0"]).
  vm_compute. do 2 apply list_elem_of_further. apply list_elem_of_here.
Defined.

(** X21.  When a run of [main] lists strongly connected components, the
    list is not empty, no package is listed twice, and each component
    listed is a whole strongly connected component of the graph loaded
    with two members at least. *)
Theorem main_componentes (arquivos : string → option (list string))
    (entradas : list string) (cfcs : list (list string)) :
  Principal.Componentes cfcs ∈ (Principal.main arquivos entradas).1 →
  ∃ resposta linhas g,
    head entradas = Some resposta
    ∧ arquivos (if decide (resposta = "") then "entrada.txt" else resposta)
      = Some linhas
    ∧ CarregarArquivo.carregar_arquivo linhas = Ok g
    ∧ cfcs ≠ [] ∧ NoDup (mjoin cfcs)
    ∧ ∀ comp, comp ∈ cfcs → componente_ok g comp ∧ cfc_maximal g comp.
Proof.
  intros Hs. pose proof (main_justificada arquivos entradas) as Hj.
  destruct (Hj _ Hs) as [Hs'|(r & ls & g & Hr & Ha & Hg & Hd & Hi & Hc & Hne & Hnd & Hok)];
    [done|].
  by exists r, ls, g.
Qed.

Lemma main_componentes_witness :
  ∃ resposta linhas g,
    head [""; "1"; "0"] = Some resposta
    ∧ (λ _ : string, Some ["A B"; "B C"; "C A"])
        (if decide (resposta = "") then "entrada.txt" else resposta)
      = Some linhas
    ∧ CarregarArquivo.carregar_arquivo linhas = Ok g
    ∧ [["C"; "B"; "A"]] ≠ [] ∧ NoDup (mjoin [["C"; "B"; "A"]])
    ∧ ∀ comp, comp ∈ [["C"; "B"; "A"]] → componente_ok g comp ∧ cfc_maximal g comp.
Proof.
  apply (main_componentes (λ _, Some ["A B"; "B C"; "C A"]) [""; "1"; "0"]
           [["C"; "B"; "A"]]).
  vm_compute. do 2 apply list_elem_of_further. apply list_elem_of_here.
Defined.
